(** * go-vnc: security handshake and server-message decoder

    A shallow embedding of [security.go], [client_auth_vnc.go] and
    [server.go], followed by the properties of the specification.

    Conventions.
    - A Go [byte], [uint16], [uint32] or [int32] is a [Z]; every place
      where Go's fixed-width arithmetic can wrap has the wrap written out
      ([wrap8], [wrap16]).
    - A Go [string] is a sequence of 8-bit characters: [String.string].
    - A byte stream ([io.Reader], the read side of [net.Conn]) is the list
      of bytes not yet consumed; the end of the list is end-of-file.
    - A function returning [(T, error)] returns a pair of options, [None]
      standing for Go's [nil]. *)

From Stdlib Require Import ZArith List String Ascii Lia Bool DecimalString.
From Stdlib Require DecimalPos DecimalZ.
From stdpp Require Import base option list gmap.

Open Scope Z_scope.

(** ** Errors *)

Inductive error : Type :=
| EOF                         (* io.EOF *)
| ErrUnexpectedEOF            (* io.ErrUnexpectedEOF *)
| VNCError (msg : string)     (* NewVNCError(msg) *)
| Errorf (msg : string)       (* fmt.Errorf(...) with the verbs expanded *)
| CipherError (msg : string)  (* an error of the block-cipher package *)
| ConnError (msg : string).   (* a failure of the transport on write *)

(** ** Bytes, fixed-width integers and the wire format *)

Module Wire.

Definition wrap8 (x : Z) : Z := x mod 256.
Definition wrap16 (x : Z) : Z := x mod 65536.

(** [[]byte(s)] for a Go string [s]. *)
Fixpoint bytes_of_string (s : string) : list Z :=
  match s with
  | EmptyString => []
  | String a s' => Z.of_N (N_of_ascii a) :: bytes_of_string s'
  end.

(** [string(bs)] for a Go byte slice [bs]. *)
Fixpoint string_of_bytes (bs : list Z) : string :=
  match bs with
  | [] => EmptyString
  | b :: bs' => String (ascii_of_N (Z.to_N b)) (string_of_bytes bs')
  end.

(** [binary.BigEndian]: the unsigned value of a byte sequence. *)
Definition be_decode (bs : list Z) : Z :=
  fold_left (fun acc b => acc * 256 + b) bs 0.

(** [binary.BigEndian]: the [n] bytes of a value, most significant first. *)
Fixpoint be_encode (n : nat) (v : Z) : list Z :=
  match n with
  | O => []
  | S n' => (v / 256 ^ Z.of_nat n') mod 256 :: be_encode n' v
  end.

(** Conversion of a 32-bit pattern to Go's [int32]. *)
Definition to_int32 (u : Z) : Z :=
  if u <? 2147483648 then u else u - 4294967296.

(** [io.ReadFull(r, buf)] with [len(buf) = n]: all of the [n] bytes, or
    [io.EOF] when none is left, or [io.ErrUnexpectedEOF] when the stream
    ends early; a failed read has drained the stream. *)
Definition ReadFull (n : nat) (r : list Z) : (list Z + error) * list Z :=
  if (n <=? length r)%nat then (inl (take n r), drop n r)
  else match r with
       | [] => (inr EOF, [])
       | _ :: _ => (inr ErrUnexpectedEOF, [])
       end.

(** [fmt]'s verb [%d]. *)
Definition fmt_d (v : Z) : string := NilZero.string_of_int (Z.to_int v).

End Wire.
Import Wire.

(** ** The block cipher ([crypto/des], [crypto/cipher.Block]) *)

(** [des.BlockSize]. *)
Definition BlockSize : nat := 8.

(** A [cipher.Block] of [crypto/des]: [Encrypt] maps the 8 bytes of the
    source block to the 8 bytes stored in the destination block. *)
Record Block : Type := {
  Encrypt : list Z -> list Z;
  Encrypt_length : forall b, length b = BlockSize -> length (Encrypt b) = BlockSize
}.

(** The cipher package: [des.NewCipher(key)] yields a block or an error. *)
Class CipherPkg : Type := { NewCipher : list Z -> Block + error }.

(** [cipher.Encrypt(c[i:i+BlockSize], c[i:i+BlockSize])]: the block at
    offset [i] of [c] is replaced in place by its encryption. The callers
    slice a 16-byte array at offsets 0 and 8 only, within bounds. *)
Definition encrypt_at (blk : Block) (i : nat) (c : list Z) : list Z :=
  take i c ++ Encrypt blk (take BlockSize (drop i c)) ++ drop (i + BlockSize) c.

(** ** The transport ([net.Conn]) *)

Record Conn : Type := {
  inbound : list Z;           (* bytes the peer has sent, not yet read *)
  outbound : list Z;          (* bytes written to the peer so far *)
  write_failure : option error; (* when set, every write fails with it *)
  io_calls : nat              (* number of reads and writes performed *)
}.

(** [binary.Read(conn, binary.BigEndian, &buf)] for an [n]-byte array. *)
Definition conn_Read (n : nat) (conn : Conn) : (list Z + error) * Conn :=
  let '(res, rest) := ReadFull n (inbound conn) in
  (res, {| inbound := rest; outbound := outbound conn;
           write_failure := write_failure conn;
           io_calls := S (io_calls conn) |}).

(** [binary.Write(conn, binary.BigEndian, buf)] for a byte array. *)
Definition conn_Write (bs : list Z) (conn : Conn) : option error * Conn :=
  match write_failure conn with
  | Some e =>
      (Some e, {| inbound := inbound conn; outbound := outbound conn;
                  write_failure := write_failure conn;
                  io_calls := S (io_calls conn) |})
  | None =>
      (None, {| inbound := inbound conn; outbound := outbound conn ++ bs;
                write_failure := write_failure conn;
                io_calls := S (io_calls conn) |})
  end.

(** [copy(dst, src)]: the first [min(len(dst), len(src))] bytes of [dst]
    are overwritten by those of [src]. *)
Definition copy (dst src : list Z) : list Z :=
  let n := Nat.min (length dst) (length src) in
  take n src ++ drop n dst.

(** [make([]byte, n)]. *)
Definition make_bytes (n : nat) : list Z := replicate n 0.

(** ** security.go *)

Module Security.

Definition secTypeInvalid : Z := 0.
Definition secTypeNone : Z := 1.
Definition secTypeVNCAuth : Z := 2.

Definition vncAuthChallengeSize : nat := 16.

Record ClientAuthVNC : Type := { Password : string }.

Definition ClientAuthNone_SecurityType : Z := secTypeNone.
Definition ClientAuthNone_Handshake (conn : Conn) : option error * Conn :=
  (None, conn).

Definition SecurityType (auth : ClientAuthVNC) : Z := secTypeVNCAuth.

(** The three assignments of the body of the loop of [encode]. *)
Definition swap_bits (k : Z) : Z :=
  let k := Z.lor (wrap8 (Z.shiftl (Z.land k 0x55) 1)) (Z.shiftr (Z.land k 0xAA) 1) in
  let k := Z.lor (wrap8 (Z.shiftl (Z.land k 0x33) 2)) (Z.shiftr (Z.land k 0xCC) 2) in
  let k := Z.lor (wrap8 (Z.shiftl (Z.land k 0x0F) 4)) (Z.shiftr (Z.land k 0xF0) 4) in
  k.

(** The key of [encode]: the password copied into an 8-byte zeroed slice,
    then [for i := range key] rewriting every byte. *)
Definition derive_key (auth : ClientAuthVNC) : list Z :=
  let key := make_bytes 8 in
  let key := copy key (bytes_of_string (Password auth)) in
  map swap_bits key.

(** [for i := 0; i < vncAuthChallengeSize; i += cipher.BlockSize()]: the
    step is positive, so [vncAuthChallengeSize] rounds of fuel are never
    exhausted. *)
Fixpoint encrypt_blocks (fuel : nat) (cipher : Block) (i : nat) (c : list Z) : list Z :=
  match fuel with
  | O => c
  | S fuel' =>
      if (i <? vncAuthChallengeSize)%nat
      then encrypt_blocks fuel' cipher (i + BlockSize) (encrypt_at cipher i c)
      else c
  end.

Section WithCipher.
Context `{CipherPkg}.

(** [encode]: the new contents of the challenge array and the error. *)
Definition encode (auth : ClientAuthVNC) (c : list Z) : list Z * option error :=
  let key := derive_key auth in
  match NewCipher key with
  | inr err => (c, Some err)
  | inl cipher =>
      (encrypt_blocks vncAuthChallengeSize cipher 0 c, None)
  end.

Definition Handshake (auth : ClientAuthVNC) (conn : Conn) : option error * Conn :=
  if String.eqb (Password auth) EmptyString then
    (Some (VNCError "securityHandshake: handshake failed; no password provided for VNCAuth."),
     conn)
  else
    match conn_Read vncAuthChallengeSize conn with
    | (inr err, conn) => (Some err, conn)
    | (inl challenge, conn) =>
        (* auth.encode(&challenge): the returned error is not looked at *)
        let '(challenge, _) := encode auth challenge in
        match conn_Write challenge conn with
        | (Some err, conn) => (Some err, conn)
        | (None, conn) => (None, conn)
        end
    end.

End WithCipher.
End Security.

(** ** client_auth_vnc.go *)

Module Legacy.

Record ClientAuthVNC : Type := { Password : string }.

Definition SecurityType (auth : ClientAuthVNC) : Z := 2.

Definition reverse (x : Z) : Z :=
  let x := Z.lor (wrap8 (Z.shiftl (Z.land x 0x55) 1)) (Z.shiftr (Z.land x 0xAA) 1) in
  let x := Z.lor (wrap8 (Z.shiftl (Z.land x 0x33) 2)) (Z.shiftr (Z.land x 0xCC) 2) in
  let x := Z.lor (wrap8 (Z.shiftl (Z.land x 0x0F) 4)) (Z.shiftr (Z.land x 0xF0) 4) in
  x.

Definition derive_key (auth : ClientAuthVNC) : list Z :=
  let key := make_bytes 8 in
  let key := copy key (bytes_of_string (Password auth)) in
  map reverse key.

Section WithCipher.
Context `{CipherPkg}.

Definition Handshake (auth : ClientAuthVNC) (conn : Conn) : option error * Conn :=
  match conn_Read 16 conn with
  | (inr err, conn) => (Some err, conn)
  | (inl challenge, conn) =>
      let key := derive_key auth in
      match NewCipher key with
      | inr err => (Some err, conn)
      | inl cipher =>
          (* challengeLow := challenge[0:8]; challengeHigh := challenge[8:16] *)
          let challenge := encrypt_at cipher 0 challenge in
          let challenge := encrypt_at cipher 8 challenge in
          match conn_Write challenge conn with
          | (Some err, conn) => (Some err, conn)
          | (None, conn) => (None, conn)
          end
      end
  end.

End WithCipher.
End Legacy.

(** ** server.go *)

Module Server.

Definition FramebufferUpdateMsg : Z := 0.
Definition SetColorMapEntriesMsg : Z := 1.
Definition BellMsg : Z := 2.
Definition ServerCutTextMsg : Z := 3.

(** Color represents a single color in a color map. *)
Record Color : Type := { R : Z; G : Z; B : Z }.

(** Modelled from the spec: the [Encoding] interface, the [Raw] encoding
    id and the constructor [NewRawEncoding] are declared outside the
    decoder. An encoding is a "decoder capability" identified by a signed
    32-bit id, its [Type()]; [Raw] is the "reserved Raw id" and
    [NewRawEncoding] builds the "stateless built-in Raw decoder". *)
Class EncodingPkg (Encoding : Type) : Type := {
  Type_ : Encoding -> Z;
  Raw : Z;
  NewRawEncoding : list Color -> Encoding
}.

(** RectangleMessage holds the wire format message. *)
Record RectangleMessage : Type := {
  msg_X : Z; msg_Y : Z; msg_Width : Z; msg_Height : Z; msg_Encoding : Z
}.

Section Decoder.
Context {Encoding : Type} `{EncodingPkg Encoding}.

(** Rectangle represents a rectangle of pixel data; [Enc] is an interface
    value, [None] being Go's [nil]. *)
Record Rectangle : Type := {
  X : Z; Y : Z; Width : Z; Height : Z; Enc : option Encoding
}.

Record FramebufferUpdate : Type := {
  Msg : Z; NumRect : Z; Rects : list Rectangle
}.

Record SetColorMapEntries : Type := {
  FirstColor : Z; Colors : list Color
}.

Record ServerCutText : Type := { Text : string }.

(** The values of the interface [ServerMessage]. *)
Inductive ServerMessage : Type :=
| MsgFramebufferUpdate (m : FramebufferUpdate)
| MsgSetColorMapEntries (m : SetColorMapEntries)
| MsgBell
| MsgServerCutText (m : ServerCutText).

(** Modelled from the spec: the connection [ClientConn] is declared
    outside the decoder. Its contract: the bytes of the connection that
    [receive] has not yet consumed, the "currently configured encoding
    list", the color map ("a mapping from a color index (unsigned 16-bit)
    to Color") and the debug flag. Under [c.debug] the readers call
    [log.Print], which writes to the process log and takes no part in
    what they read or return; the log is not modelled. *)
Record ClientConn : Type := {
  c_stream : list Z;
  encodings : list Encoding;
  colorMap : gmap Z Color;
  debug : bool
}.

(** Modelled from the spec: [c.Encodings()] is the connection's
    "currentEncodings() -> ordered sequence of (id, decoder)". *)
Definition Encodings (c : ClientConn) : list Encoding := encodings c.

(** The decoder's state: the connection and the reader [r] it is given.
    The source reads a FramebufferUpdate through [c.receive] and the
    other messages through [r]; the two byte sources are kept apart
    here, and whether a caller hands in the connection's own stream as
    [r] is decided outside these files. *)
Definition state : Type := ClientConn * list Z.

(** Computations that read the state and stop at the first error. *)
Definition dec (A : Type) : Type := state -> (A + error) * state.

Definition ret {A} (a : A) : dec A := fun st => (inl a, st).
Definition fail {A} (e : error) : dec A := fun st => (inr e, st).
Definition bind {A B} (m : dec A) (k : A -> dec B) : dec B :=
  fun st => match m st with
            | (inl a, st') => k a st'
            | (inr e, st') => (inr e, st')
            end.

Notation "'do' x <- m ; k" := (bind m (fun x => k))
  (at level 10, x name, m at level 100, k at level 200).

(** Modelled from the spec: [c.receive(&buf)] "fills buffer or fails",
    reading the big-endian bytes of the buffer from the connection. The
    spec fixes no more than that: which error a failed [receive] returns
    and what is left of the stream after a failure are taken from
    [io.ReadFull] here, and the statements on [FramebufferUpdate.Read]
    rely on neither. *)
Definition receive (n : nat) : dec (list Z) :=
  fun '(c, r) =>
    let '(res, rest) := ReadFull n (c_stream c) in
    (res, ({| c_stream := rest; encodings := encodings c;
              colorMap := colorMap c; debug := debug c |}, r)).

(** [io.ReadFull(r, buf)] and [binary.Read(r, binary.BigEndian, &buf)]. *)
Definition read (n : nat) : dec (list Z) :=
  fun '(c, r) => let '(res, rest) := ReadFull n r in (res, (c, rest)).

Definition read_uint16 : dec Z := do bs <- read 2; ret (be_decode bs).
Definition read_uint32 : dec Z := do bs <- read 4; ret (be_decode bs).

(** [c.colorMap[k] = color]. *)
Definition set_colorMap (k : Z) (color : Color) : dec unit :=
  fun '(c, r) =>
    (inl tt, ({| c_stream := c_stream c; encodings := encodings c;
                 colorMap := <[k := color]> (colorMap c);
                 debug := debug c |}, r)).

(** The result [(ServerMessage, error)] of a [Read] method. *)
Definition finish (m : dec ServerMessage) (st : state)
  : option ServerMessage * option error * state :=
  match m st with
  | (inl msg, st') => (Some msg, None, st')
  | (inr err, st') => (None, Some err, st')
  end.

(** *** FramebufferUpdate *)

Definition NewFramebufferUpdate (rects : list Rectangle) : FramebufferUpdate :=
  {| Msg := FramebufferUpdateMsg;
     NumRect := wrap16 (Z.of_nat (length rects));
     Rects := rects |}.

(** "Build the map of encodings supported". *)
Definition build_encMap (encs : list Encoding) : gmap Z Encoding :=
  let encMap := foldl (fun (m : gmap Z Encoding) e => <[Type_ e := e]> m) ∅ encs in
  <[Raw := NewRawEncoding []]> encMap.

Definition receive_RectangleMessage : dec RectangleMessage :=
  do bs <- receive 12;
  ret {| msg_X := be_decode (take 2 bs);
         msg_Y := be_decode (take 2 (drop 2 bs));
         msg_Width := be_decode (take 2 (drop 4 bs));
         msg_Height := be_decode (take 2 (drop 6 bs));
         msg_Encoding := to_int32 (be_decode (take 4 (drop 8 bs))) |}.

Definition zero_Rectangle : Rectangle :=
  {| X := 0; Y := 0; Width := 0; Height := 0; Enc := None |}.

(** [for i := uint16(0); i < numRects; i++], with [todo = numRects - i]
    iterations left; [rects] has [numRects] elements, so [rects[i]] is
    in range. *)
Fixpoint rect_loop (encMap : gmap Z Encoding) (todo : nat) (i : nat)
    (rects : list Rectangle) : dec (list Rectangle) :=
  match todo with
  | O => ret rects
  | S todo' =>
      do msg <- receive_RectangleMessage;
      match encMap !! msg_Encoding msg with
      | None =>
          fail (Errorf ("unsupported encoding type: " ++ fmt_d (msg_Encoding msg)))
      | Some enc =>
          let rect := {| X := msg_X msg; Y := msg_Y msg;
                         Width := msg_Width msg; Height := msg_Height msg;
                         Enc := Some enc |} in
          rect_loop encMap todo' (S i) (<[i := rect]> rects)
      end
  end.

Definition FramebufferUpdate_Read (c : ClientConn) (r : list Z)
  : option ServerMessage * option error * state :=
  let encMap := build_encMap (Encodings c) in
  finish
    (do pad <- receive 1;
     do bs <- receive 2;
     let numRects := be_decode bs in
     let rects := replicate (Z.to_nat numRects) zero_Rectangle in
     do rects <- rect_loop encMap (Z.to_nat numRects) 0 rects;
     ret (MsgFramebufferUpdate (NewFramebufferUpdate rects)))
    (c, r).

(** *** SetColorMapEntries *)

Definition zero_Color : Color := {| R := 0; G := 0; B := 0 |}.

(** [for i := uint16(0); i < numColors; i++], with [todo = numColors - i]
    iterations left; [result.Colors] has [numColors] elements, so
    [result.Colors[i]] is in range, and [result.FirstColor+i] is a
    [uint16] sum, which wraps. *)
Fixpoint color_loop (FirstColor : Z) (todo : nat) (i : nat)
    (colors : list Color) : dec (list Color) :=
  match todo with
  | O => ret colors
  | S todo' =>
      do r_ <- read_uint16;
      do g_ <- read_uint16;
      do b_ <- read_uint16;
      let color := {| R := r_; G := g_; B := b_ |} in
      let colors := <[i := color]> colors in
      do _ <- set_colorMap (wrap16 (FirstColor + Z.of_nat i)) color;
      color_loop FirstColor todo' (S i) colors
  end.

Definition SetColorMapEntries_Read (c : ClientConn) (r : list Z)
  : option ServerMessage * option error * state :=
  finish
    (do padding <- read 1;
     do first <- read_uint16;
     do numColors <- read_uint16;
     let colors := replicate (Z.to_nat numColors) zero_Color in
     do colors <- color_loop first (Z.to_nat numColors) 0 colors;
     ret (MsgSetColorMapEntries {| FirstColor := first; Colors := colors |}))
    (c, r).

(** *** Bell *)

Definition Bell_Read (c : ClientConn) (r : list Z)
  : option ServerMessage * option error * state :=
  (Some MsgBell, None, (c, r)).

(** *** ServerCutText *)

Definition ServerCutText_Read (c : ClientConn) (r : list Z)
  : option ServerMessage * option error * state :=
  finish
    (do padding <- read 1;
     do textLength <- read_uint32;
     do textBytes <- read (Z.to_nat textLength);
     ret (MsgServerCutText {| Text := string_of_bytes textBytes |}))
    (c, r).

(** *** The [Type] methods *)

Definition FramebufferUpdate_Type (m : FramebufferUpdate) : Z := Msg m.
Definition SetColorMapEntries_Type (m : SetColorMapEntries) : Z :=
  SetColorMapEntriesMsg.
Definition Bell_Type : Z := BellMsg.
Definition ServerCutText_Type (m : ServerCutText) : Z := ServerCutTextMsg.

(** [msg.Type()] for a value [msg] of the interface [ServerMessage]. *)
Definition ServerMessage_Type (msg : ServerMessage) : Z :=
  match msg with
  | MsgFramebufferUpdate m => FramebufferUpdate_Type m
  | MsgSetColorMapEntries m => SetColorMapEntries_Type m
  | MsgBell => Bell_Type
  | MsgServerCutText m => ServerCutText_Type m
  end.

End Decoder.
End Server.

(** ** Vocabulary of the statements and sample instances *)

(** The bit test used to compare a byte with its mirror image. *)
Definition mirrored (b r : Z) : bool :=
  forallb (fun k => Bool.eqb (Z.testbit r k) (Z.testbit b (7 - k)))
          [0; 1; 2; 3; 4; 5; 6; 7].

(** Two cipher packages to evaluate the handshakes on: a block cipher that
    mirrors a block and masks it with the first key byte, built for
    8-byte keys only, and a package that rejects every key. *)

Definition mask_encrypt (key b : list Z) : list Z :=
  map (Z.lxor (default 0 (key !! 0%nat))) (rev b).

Definition mask_block (key : list Z) : Block :=
  {| Encrypt := mask_encrypt key;
     Encrypt_length := fun b Hb =>
       eq_trans (length_map _ (rev b)) (eq_trans (length_rev b) Hb) |}.

Definition mask_cipher : CipherPkg :=
  {| NewCipher key :=
       if (length key =? 8)%nat then inl (mask_block key)
       else inr (CipherError "invalid key size") |}.

Definition rejecting_cipher : CipherPkg :=
  {| NewCipher key := inr (CipherError "key rejected") |}.

Definition challenge_0_15 : list Z :=
  [0; 1; 2; 3; 4; 5; 6; 7; 8; 9; 10; 11; 12; 13; 14; 15].

Definition fresh_conn (bytes : list Z) : Conn :=
  {| inbound := bytes; outbound := []; write_failure := None; io_calls := 0 |}.

(** The first 8 bytes of a password, zero-padded to 8 bytes. *)
Definition padded_password (pw : string) : list Z :=
  take 8 (bytes_of_string pw ++ replicate 8 0).

(** The error of [io.ReadFull] on a stream that ends before the buffer is
    full, [left] being what the stream still held. *)
Definition eof_error (left : list Z) : error :=
  match left with
  | [] => EOF
  | _ :: _ => ErrUnexpectedEOF
  end.

(** The connection after a read that found the stream too short. *)
Definition after_short_read (conn : Conn) : Conn :=
  {| inbound := []; outbound := outbound conn;
     write_failure := write_failure conn; io_calls := S (io_calls conn) |}.

(** [fill i xs l]: the list [l] after the assignments [l[i] = xs[0]],
    [l[i+1] = xs[1]], ... of a decoding loop. *)
Fixpoint fill {A : Type} (i : nat) (xs : list A) (l : list A) : list A :=
  match xs with
  | [] => l
  | x :: xs' => fill (S i) xs' (<[i := x]> l)
  end.

Section Vocabulary.
Import Server.
Context {Encoding : Type}.

Local Abbreviation ClientConn := (@Server.ClientConn Encoding).

Definition with_stream (c : ClientConn) (s : list Z) : ClientConn :=
  {| c_stream := s; encodings := encodings c;
     colorMap := colorMap c; debug := debug c |}.

Definition with_colorMap (c : ClientConn) (m : gmap Z Color) : ClientConn :=
  {| c_stream := c_stream c; encodings := encodings c;
     colorMap := m; debug := debug c |}.

(** The wire form of a rectangle header: x, y, width, height as 16-bit
    and the encoding id as a signed 32-bit integer, big-endian. *)
Definition rect_bytes (m : RectangleMessage) : list Z :=
  be_encode 2 (msg_X m) ++ be_encode 2 (msg_Y m) ++
  be_encode 2 (msg_Width m) ++ be_encode 2 (msg_Height m) ++
  be_encode 4 (msg_Encoding m mod 4294967296).

Definition valid_rect (m : RectangleMessage) : Prop :=
  0 <= msg_X m < 65536 /\ 0 <= msg_Y m < 65536 /\
  0 <= msg_Width m < 65536 /\ 0 <= msg_Height m < 65536 /\
  -2147483648 <= msg_Encoding m < 2147483648.

(** The wire form of a color: R, G, B as 16-bit, big-endian. *)
Definition color_bytes (col : Color) : list Z :=
  be_encode 2 (R col) ++ be_encode 2 (G col) ++ be_encode 2 (B col).

Definition valid_Color (col : Color) : Prop :=
  0 <= R col < 65536 /\ 0 <= G col < 65536 /\ 0 <= B col < 65536.

(** Following the spec's words: color [j] of the message is written at
    key [firstColor + j], 16-bit wrapping, in index order, each write
    overwriting what the map held; [i] is the index of the head of
    [cols]. *)
Fixpoint store_colors (first : Z) (i : nat) (cols : list Color)
    (m : gmap Z Color) : gmap Z Color :=
  match cols with
  | [] => m
  | col :: cols' =>
      store_colors first (S i) cols' (<[wrap16 (first + Z.of_nat i) := col]> m)
  end.

(** The rectangle decoded from a header under a registry. *)
Definition rect_of (encMap : gmap Z Encoding) (m : RectangleMessage)
  : @Rectangle Encoding :=
  {| X := msg_X m; Y := msg_Y m; Width := msg_Width m;
     Height := msg_Height m; Enc := encMap !! msg_Encoding m |}.

(** A decoding step that leaves the connection's encodings and debug
    flag as they were and removes no entry of the color map. *)
Definition grows_colorMap (st st' : @Server.state Encoding) : Prop :=
  encodings (fst st') = encodings (fst st) /\
  debug (fst st') = debug (fst st) /\
  forall k, is_Some (colorMap (fst st) !! k) ->
            is_Some (colorMap (fst st') !! k).

(** The error of a SetColorMapEntries decode whose stream ends within a
    color: the three 16-bit fields are read one by one, so the stream
    ends at a field boundary when an even number of bytes is left over. *)
Definition color_eof_error (partial : list Z) : error :=
  if Nat.even (length partial) then EOF else ErrUnexpectedEOF.

(** Every value a decoding computation can return satisfies [P]. *)
Definition returns {A : Type} (P : A -> Prop) (m : @Server.dec Encoding A) : Prop :=
  forall st a st', m st = (inl a, st') -> P a.

End Vocabulary.

(** An encoding package to run the decoder on: the built-in Raw decoder
    and caller-supplied codecs that announce an id of their own. *)
Inductive SampleEncoding : Type :=
| SampleRaw (colors : list Server.Color)
| SampleCodec (id : Z) (name : string).

Definition sample_pkg : Server.EncodingPkg SampleEncoding :=
  {| Server.Type_ e := match e with
                       | SampleRaw _ => 0
                       | SampleCodec id _ => id
                       end;
     Server.Raw := 0;
     Server.NewRawEncoding := SampleRaw |}.

Section SampleConnections.
Import Server.

Definition sample_conn (stream : list Z) (encs : list SampleEncoding)
  : @ClientConn SampleEncoding :=
  {| c_stream := stream; encodings := encs; colorMap := ∅; debug := false |}.

Definition sample_rect (x y w h enc : Z) : RectangleMessage :=
  {| msg_X := x; msg_Y := y; msg_Width := w; msg_Height := h;
     msg_Encoding := enc |}.

End SampleConnections.

(** * Properties *)

(** ** Bytes *)

Section ByteFacts.

(** A boolean property checked on the 256 byte values holds of every byte. *)
Lemma forall_byte (f : Z -> bool) :
  forallb f (map Z.of_nat (seq 0 256)) = true ->
  forall b, 0 <= b < 256 -> f b = true.
Proof.
  intros Hall b Hb.
  rewrite forallb_forall in Hall. apply Hall.
  apply in_map_iff. exists (Z.to_nat b). split; [lia|].
  apply in_seq. lia.
Qed.

Lemma bytes_of_string_range (s : string) :
  Forall (fun b => 0 <= b < 256) (bytes_of_string s).
Proof.
  induction s as [|a s IH]; simpl; constructor; auto.
  pose proof (N_ascii_bounded a). lia.
Qed.

Lemma bytes_of_string_length (s : string) :
  length (bytes_of_string s) = String.length s.
Proof. induction s; simpl; congruence. Qed.

Lemma string_of_bytes_of_string (s : string) :
  string_of_bytes (bytes_of_string s) = s.
Proof.
  induction s as [|a s IH]; simpl; [reflexivity|].
  rewrite N2Z.id, ascii_N_embedding, IH. reflexivity.
Qed.

End ByteFacts.

(** ** Key derivation *)

Section KeyDerivation.
Import Security.

Lemma swap_bits_reverse (b : Z) : swap_bits b = Legacy.reverse b.
Proof. reflexivity. Qed.

Lemma reverse_range (b : Z) : 0 <= b < 256 -> 0 <= Legacy.reverse b < 256.
Proof.
  intros Hb.
  pose proof (forall_byte
    (fun b => (0 <=? Legacy.reverse b) && (Legacy.reverse b <? 256))
    ltac:(vm_compute; reflexivity) b Hb) as Hc.
  simpl in Hc. apply andb_true_iff in Hc as [H0 H1]. lia.
Qed.

Lemma reverse_testbit (b k : Z) :
  0 <= b < 256 -> 0 <= k < 8 ->
  Z.testbit (Legacy.reverse b) k = Z.testbit b (7 - k).
Proof.
  intros Hb Hk.
  pose proof (forall_byte (fun b => mirrored b (Legacy.reverse b))
    ltac:(vm_compute; reflexivity) b Hb) as Hc.
  simpl in Hc. unfold mirrored in Hc. rewrite forallb_forall in Hc.
  apply eqb_prop, Hc.
  assert (k = 0 \/ k = 1 \/ k = 2 \/ k = 3 \/ k = 4 \/ k = 5 \/ k = 6 \/ k = 7)
    as Hcases by lia.
  simpl. intuition auto.
Qed.

Lemma reverse_reverse (b : Z) :
  0 <= b < 256 -> Legacy.reverse (Legacy.reverse b) = b.
Proof.
  intros Hb.
  pose proof (forall_byte (fun b => Legacy.reverse (Legacy.reverse b) =? b)
    ltac:(vm_compute; reflexivity) b Hb) as Hc.
  simpl in Hc. lia.
Qed.

Lemma copy_length (dst src : list Z) : length (copy dst src) = length dst.
Proof.
  unfold copy. rewrite length_app, length_take, length_drop. lia.
Qed.

Lemma copy_lookup_src (dst src : list Z) (i : nat) (b : Z) :
  (i < length dst)%nat -> src !! i = Some b -> copy dst src !! i = Some b.
Proof.
  intros Hi Hb. unfold copy.
  pose proof (lookup_lt_Some _ _ _ Hb) as Hlt.
  rewrite lookup_app_l by (rewrite length_take; lia).
  rewrite lookup_take_lt by lia. exact Hb.
Qed.

Lemma copy_lookup_dst (dst src : list Z) (i : nat) :
  (length src <= i)%nat -> copy dst src !! i = dst !! i.
Proof.
  intros Hi. unfold copy.
  destruct (decide (length dst <= length src)%nat) as [Hle|Hgt].
  - rewrite Nat.min_l by lia.
    rewrite (drop_ge dst) by lia. rewrite app_nil_r.
    rewrite lookup_take_ge by lia.
    symmetry. apply lookup_ge_None. lia.
  - rewrite Nat.min_r by lia.
    rewrite lookup_app_r by (rewrite length_take; lia).
    rewrite length_take, Nat.min_l by lia.
    rewrite lookup_drop. f_equal. lia.
Qed.

Lemma copy_take (dst src : list Z) :
  copy dst (take (length dst) src) = copy dst src.
Proof.
  unfold copy. rewrite length_take.
  replace (length dst `min` (length dst `min` length src))%nat
    with (length dst `min` length src)%nat by lia.
  rewrite take_take.
  replace ((length dst `min` length src) `min` length dst)%nat
    with (length dst `min` length src)%nat by lia.
  reflexivity.
Qed.

Lemma derive_key_length (auth : ClientAuthVNC) : length (derive_key auth) = 8%nat.
Proof. unfold derive_key. rewrite length_map, copy_length. reflexivity. Qed.

Lemma derive_key_legacy (pw : string) :
  Legacy.derive_key {| Legacy.Password := pw |} = derive_key {| Password := pw |}.
Proof. reflexivity. Qed.

Lemma derive_key_lookup (auth : ClientAuthVNC) (i : nat) :
  (i < 8)%nat ->
  derive_key auth !! i =
  Some (swap_bits (default 0 (bytes_of_string (Password auth) !! i))).
Proof.
  intros Hi. unfold derive_key.
  change (map swap_bits ?l) with (swap_bits <$> l).
  rewrite list_lookup_fmap.
  destruct (bytes_of_string (Password auth) !! i) as [b|] eqn:Hpw; simpl.
  - rewrite (copy_lookup_src _ _ i b); [reflexivity | simpl; lia | exact Hpw].
  - apply lookup_ge_None in Hpw.
    rewrite copy_lookup_dst by exact Hpw.
    unfold make_bytes. rewrite lookup_replicate_2 by lia. reflexivity.
Qed.

Lemma derive_key_truncates (auth auth' : ClientAuthVNC) :
  take 8 (bytes_of_string (Password auth')) = take 8 (bytes_of_string (Password auth)) ->
  derive_key auth' = derive_key auth.
Proof.
  intros Heq. unfold derive_key.
  rewrite <- (copy_take _ (bytes_of_string (Password auth'))).
  rewrite <- (copy_take _ (bytes_of_string (Password auth))).
  simpl length. rewrite Heq. reflexivity.
Qed.

(** C7. The key derived from a password has exactly 8 bytes. Byte [i] of
    the key is the bit-reversal (bit [k] is bit [7 - k]) of byte [i] of
    the password when the password has one, and of a zero byte, hence
    zero, otherwise; password bytes from the ninth on play no part: two
    passwords with the same first 8 bytes have the same key. The inline
    derivation of [security.go] and the one of [client_auth_vnc.go]
    through [reverse] give the same key. *)
Theorem derive_key_spec (auth auth' : ClientAuthVNC) (i : nat) (k : Z) :
  (i < 8)%nat -> 0 <= k < 8 ->
  take 8 (bytes_of_string (Password auth')) = take 8 (bytes_of_string (Password auth)) ->
  let pw := bytes_of_string (Password auth) in
  let key := derive_key auth in
  length key = 8%nat /\
  (exists kb, key !! i = Some kb /\ 0 <= kb < 256 /\
              Z.testbit kb k = Z.testbit (default 0 (pw !! i)) (7 - k)) /\
  ((length pw <= i)%nat -> key !! i = Some 0) /\
  derive_key auth' = key /\
  Legacy.derive_key {| Legacy.Password := Password auth |} = key.
Proof.
  intros Hi Hk Hpre pw key.
  assert (0 <= default 0 (pw !! i) < 256) as Hrange.
  { destruct (pw !! i) as [b|] eqn:Hb; simpl; [|lia].
    pose proof (bytes_of_string_range (Password auth)) as Hall.
    rewrite List.Forall_forall in Hall. apply Hall.
    apply list_elem_of_In. eapply list_elem_of_lookup_2. exact Hb. }
  split; [apply derive_key_length|].
  split.
  - exists (swap_bits (default 0 (pw !! i))).
    split; [apply derive_key_lookup; exact Hi|].
    rewrite swap_bits_reverse.
    split; [apply reverse_range | apply reverse_testbit]; assumption.
  - split; [|split].
    + intros Hlen. subst key. rewrite derive_key_lookup by exact Hi.
      fold pw. rewrite (proj2 (lookup_ge_None pw i)) by exact Hlen.
      reflexivity.
    + apply derive_key_truncates. exact Hpre.
    + destruct auth. reflexivity.
Qed.

Lemma derive_key_spec_witness :
  let auth := {| Password := "password1" |} in
  let auth' := {| Password := "password2" |} in
  derive_key auth = [14; 134; 206; 206; 238; 246; 78; 38] /\
  derive_key auth' = derive_key auth /\
  exists kb, derive_key auth !! 0%nat = Some kb /\ 0 <= kb < 256 /\
             Z.testbit kb 1 = Z.testbit 112 6.
Proof.
  intros auth auth'.
  destruct (derive_key_spec auth auth' 0%nat 1) as (_ & Hbyte & _ & Htrunc & _);
    [lia | lia | reflexivity |].
  split; [reflexivity|]. split; [exact Htrunc | exact Hbyte].
Defined.

(** C9. Reversing the bits of a byte twice gives the byte back, for each
    of the 256 byte values, for [reverse] of [client_auth_vnc.go] and for
    the three inline assignments of [encode] in [security.go]. *)
Theorem reverse_involutive (b : Z) :
  0 <= b < 256 ->
  Legacy.reverse (Legacy.reverse b) = b /\ swap_bits (swap_bits b) = b.
Proof.
  intros Hb. split; [|change (swap_bits (swap_bits b)) with (Legacy.reverse (Legacy.reverse b))];
    apply reverse_reverse; exact Hb.
Qed.

Lemma reverse_involutive_witness :
  Legacy.reverse 0xB4 = 0x2D /\
  Legacy.reverse (Legacy.reverse 0xB4) = 0xB4 /\ swap_bits (swap_bits 0xB4) = 0xB4.
Proof. split; [reflexivity | apply (reverse_involutive 0xB4); lia]. Defined.

End KeyDerivation.

(** ** Challenge encryption and the handshakes *)

Section Handshakes.
Import Security.

Lemma encrypt_blocks_unroll (cipher : Block) (c : list Z) :
  encrypt_blocks vncAuthChallengeSize cipher 0 c =
  encrypt_at cipher 8 (encrypt_at cipher 0 c).
Proof. reflexivity. Qed.

Lemma encrypt_at_halves (cipher : Block) (c : list Z) :
  length c = 16%nat ->
  encrypt_at cipher 8 (encrypt_at cipher 0 c) =
  Encrypt cipher (take 8 c) ++ Encrypt cipher (drop 8 c).
Proof.
  intros Hc.
  assert (length (Encrypt cipher (take 8 c)) = 8%nat) as Hlow.
  { apply Encrypt_length. rewrite length_take. unfold BlockSize. lia. }
  unfold encrypt_at, BlockSize.
  change (0 + 8)%nat with 8%nat. change (8 + 8)%nat with 16%nat.
  rewrite take_0, drop_0, app_nil_l.
  rewrite take_app_length' by (symmetry; exact Hlow).
  rewrite drop_app_length' by (symmetry; exact Hlow).
  rewrite (take_ge (drop 8 c)) by (rewrite length_drop; lia).
  rewrite (drop_ge _ 16) by (rewrite length_app, length_drop; lia).
  rewrite app_nil_r. reflexivity.
Qed.

Lemma halves_length (cipher : Block) (c : list Z) :
  length c = 16%nat ->
  length (Encrypt cipher (take 8 c) ++ Encrypt cipher (drop 8 c)) = 16%nat.
Proof.
  intros Hc. rewrite length_app.
  rewrite !Encrypt_length; [reflexivity | |].
  - rewrite length_drop. unfold BlockSize. lia.
  - rewrite length_take. unfold BlockSize. lia.
Qed.

Lemma conn_Read_app (n : nat) (conn : Conn) (bs rest : list Z) :
  inbound conn = bs ++ rest -> length bs = n ->
  conn_Read n conn =
  (inl bs, {| inbound := rest; outbound := outbound conn;
              write_failure := write_failure conn;
              io_calls := S (io_calls conn) |}).
Proof.
  intros Hin Hlen. unfold conn_Read, ReadFull. rewrite Hin.
  assert ((n <=? length (bs ++ rest))%nat = true) as ->.
  { apply Nat.leb_le. rewrite length_app. lia. }
  rewrite take_app_length', drop_app_length' by (symmetry; exact Hlen). reflexivity.
Qed.

Context `{CipherPkg}.

Lemma encode_ok (auth : ClientAuthVNC) (c : list Z) (cipher : Block) :
  length c = 16%nat -> NewCipher (derive_key auth) = inl cipher ->
  encode auth c = (Encrypt cipher (take 8 c) ++ Encrypt cipher (drop 8 c), None).
Proof.
  intros Hc Hnew. unfold encode. rewrite Hnew.
  rewrite encrypt_blocks_unroll, encrypt_at_halves by exact Hc. reflexivity.
Qed.

(** What [Handshake] of [security.go] does with a challenge read in full,
    whatever [encode] returned. *)
Lemma Handshake_read (auth : ClientAuthVNC) (conn : Conn) (c rest : list Z) :
  Password auth <> EmptyString -> inbound conn = c ++ rest -> length c = 16%nat ->
  Handshake auth conn =
  conn_Write (fst (encode auth c))
    {| inbound := rest; outbound := outbound conn;
       write_failure := write_failure conn; io_calls := S (io_calls conn) |}.
Proof.
  intros Hpw Hin Hc. unfold Handshake.
  apply String.eqb_neq in Hpw. rewrite Hpw.
  unfold vncAuthChallengeSize.
  rewrite (conn_Read_app _ _ c rest Hin Hc).
  destruct (encode auth c) as [c' e]. simpl.
  destruct (conn_Write c' _) as [[err|] conn']; reflexivity.
Qed.

Lemma Legacy_Handshake_read (auth : Legacy.ClientAuthVNC) (conn : Conn)
    (c rest : list Z) (cipher : Block) :
  inbound conn = c ++ rest -> length c = 16%nat ->
  NewCipher (Legacy.derive_key auth) = inl cipher ->
  Legacy.Handshake auth conn =
  conn_Write (Encrypt cipher (take 8 c) ++ Encrypt cipher (drop 8 c))
    {| inbound := rest; outbound := outbound conn;
       write_failure := write_failure conn; io_calls := S (io_calls conn) |}.
Proof.
  intros Hin Hc Hnew. unfold Legacy.Handshake.
  rewrite (conn_Read_app _ _ c rest Hin Hc), Hnew.
  rewrite encrypt_at_halves by exact Hc.
  destruct (conn_Write _ _) as [[err|] conn']; reflexivity.
Qed.

(** [Handshake] of [security.go] calls [encode] as a statement: when the
    cipher package rejects the key, the error [encode] returns is dropped,
    the challenge goes back to the server as it came and the handshake
    reports success; [Handshake] of [client_auth_vnc.go] returns the
    error without writing. *)
Lemma Handshake_drops_encode_error (pw : string) (conn : Conn)
    (c rest : list Z) (err : error) :
  pw <> EmptyString -> inbound conn = c ++ rest -> length c = 16%nat ->
  write_failure conn = None ->
  NewCipher (derive_key {| Password := pw |}) = inr err ->
  let after_read :=
    {| inbound := rest; outbound := outbound conn;
       write_failure := None; io_calls := S (io_calls conn) |} in
  snd (encode {| Password := pw |} c) = Some err /\
  Handshake {| Password := pw |} conn =
    (None, {| inbound := rest; outbound := outbound conn ++ c;
              write_failure := None; io_calls := S (S (io_calls conn)) |}) /\
  Legacy.Handshake {| Legacy.Password := pw |} conn = (Some err, after_read).
Proof.
  intros Hpw Hin Hc Hwr Hnew after_read.
  split; [unfold encode; rewrite Hnew; reflexivity|].
  split.
  - rewrite (Handshake_read _ conn c rest) by assumption.
    unfold encode. rewrite Hnew. unfold conn_Write. simpl. rewrite Hwr. reflexivity.
  - unfold Legacy.Handshake.
    rewrite (conn_Read_app _ _ c rest Hin Hc).
    change (Legacy.derive_key {| Legacy.Password := pw |})
      with (derive_key {| Password := pw |}).
    rewrite Hnew, Hwr. reflexivity.
Qed.

(** C8. Under the one key derived from the password, [encode] rewrites a
    16-byte challenge as two independent block encryptions: bytes 0-7
    become the cipher applied to bytes 0-7 and bytes 8-15 the cipher
    applied to bytes 8-15, neither half entering the other, and the
    buffer still has 16 bytes. [Handshake] of [client_auth_vnc.go]
    sends the same two blocks. *)
Theorem encode_two_blocks (auth : ClientAuthVNC) (c : list Z) (cipher : Block) :
  length c = 16%nat ->
  NewCipher (derive_key auth) = inl cipher ->
  encode auth c = (Encrypt cipher (take 8 c) ++ Encrypt cipher (drop 8 c), None) /\
  length (fst (encode auth c)) = 16%nat /\
  take 8 (fst (encode auth c)) = Encrypt cipher (take 8 c) /\
  drop 8 (fst (encode auth c)) = Encrypt cipher (drop 8 c) /\
  forall conn rest,
    inbound conn = c ++ rest -> write_failure conn = None ->
    Legacy.Handshake {| Legacy.Password := Password auth |} conn =
    (None, {| inbound := rest;
              outbound := outbound conn ++
                          Encrypt cipher (take 8 c) ++ Encrypt cipher (drop 8 c);
              write_failure := None;
              io_calls := S (S (io_calls conn)) |}).
Proof.
  intros Hc Hnew.
  assert (length (Encrypt cipher (take 8 c)) = 8%nat) as Hlow.
  { apply Encrypt_length. rewrite length_take. unfold BlockSize. lia. }
  rewrite (encode_ok auth c cipher Hc Hnew). simpl fst.
  split; [reflexivity|].
  split; [apply halves_length; exact Hc|].
  split; [apply take_app_length'; symmetry; exact Hlow|].
  split; [apply drop_app_length'; symmetry; exact Hlow|].
  intros conn rest Hin Hwr.
  rewrite (Legacy_Handshake_read _ conn c rest cipher Hin Hc)
    by (destruct auth; exact Hnew).
  unfold conn_Write. simpl. rewrite Hwr. reflexivity.
Qed.

(** C3. With an empty password [Handshake] of [security.go] fails with
    the missing-password error and leaves the connection as it was: no
    byte read, no byte written, no read or write attempted. *)
Theorem Handshake_empty_password (conn : Conn) :
  Handshake {| Password := EmptyString |} conn =
  (Some (VNCError "securityHandshake: handshake failed; no password provided for VNCAuth."),
   conn).
Proof. reflexivity. Qed.

End Handshakes.

Section HandshakeInstances.
Import Security.

Lemma encode_two_blocks_witness :
  @encode mask_cipher {| Password := "secret" |} challenge_0_15 =
  ([201; 200; 203; 202; 205; 204; 207; 206;
    193; 192; 195; 194; 197; 196; 199; 198], None).
Proof.
  destruct (@encode_two_blocks mask_cipher {| Password := "secret" |}
              challenge_0_15 (mask_block (derive_key {| Password := "secret" |})))
    as (Henc & _); [reflexivity | reflexivity |].
  rewrite Henc. reflexivity.
Defined.

(** C1, on the code: with a cipher package that rejects the key, [encode]
    returns the error, yet [Handshake] of [security.go] returns no error
    and has written the 16 challenge bytes back unencrypted;
    [Handshake] of [client_auth_vnc.go] returns the error. *)
Theorem Handshake_swallows_cipher_error :
  let auth := {| Password := "secret" |} in
  let conn := fresh_conn challenge_0_15 in
  @encode rejecting_cipher auth challenge_0_15 =
    (challenge_0_15, Some (CipherError "key rejected")) /\
  @Handshake rejecting_cipher auth conn =
    (None, {| inbound := []; outbound := challenge_0_15;
              write_failure := None; io_calls := 2 |}) /\
  @Legacy.Handshake rejecting_cipher {| Legacy.Password := "secret" |} conn =
    (Some (CipherError "key rejected"),
     {| inbound := []; outbound := []; write_failure := None; io_calls := 1 |}).
Proof. repeat split. Qed.

(** C10, on the code: for the non-empty password "secret" and a stream
    presenting a 16-byte challenge, with a cipher package that rejects
    the key, the two handshakes differ. [Handshake] of [security.go]
    drops the error of [encode], answers with the 16 challenge bytes as
    they came and returns no error; [Handshake] of [client_auth_vnc.go]
    returns the cipher's error after the read and writes nothing. *)
Theorem handshakes_differ_on_cipher_error :
  let conn := fresh_conn (challenge_0_15 ++ [77]) in
  @Handshake rejecting_cipher {| Password := "secret" |} conn =
    (None, {| inbound := [77]; outbound := challenge_0_15;
              write_failure := None; io_calls := 2 |}) /\
  @Legacy.Handshake rejecting_cipher {| Legacy.Password := "secret" |} conn =
    (Some (CipherError "key rejected"),
     {| inbound := [77]; outbound := []; write_failure := None; io_calls := 1 |}) /\
  @Handshake rejecting_cipher {| Password := "secret" |} conn <>
  @Legacy.Handshake rejecting_cipher {| Legacy.Password := "secret" |} conn.
Proof. repeat split. discriminate. Qed.

End HandshakeInstances.

(** ** The wire format *)

Section WireFacts.

Lemma ReadFull_app (n : nat) (bs rest : list Z) :
  length bs = n -> ReadFull n (bs ++ rest) = (inl bs, rest).
Proof.
  intros Hlen. unfold ReadFull.
  assert ((n <=? length (bs ++ rest))%nat = true) as ->.
  { apply Nat.leb_le. rewrite length_app. lia. }
  rewrite take_app_length', drop_app_length' by (symmetry; exact Hlen).
  reflexivity.
Qed.

Lemma be_encode_length (n : nat) (v : Z) : length (be_encode n v) = n.
Proof. induction n as [|n IH]; simpl; [reflexivity | rewrite IH; reflexivity]. Qed.

Lemma be_decode_from (n : nat) (v acc : Z) :
  fold_left (fun a b => a * 256 + b) (be_encode n v) acc =
  acc * 256 ^ Z.of_nat n + v mod 256 ^ Z.of_nat n.
Proof.
  revert acc. induction n as [|n IH]; intros acc.
  - simpl. rewrite Z.mod_1_r. lia.
  - cbn [be_encode fold_left]. rewrite IH.
    rewrite Nat2Z.inj_succ, Z.pow_succ_r by lia.
    assert (0 < 256 ^ Z.of_nat n) as Hpos by (apply Z.pow_pos_nonneg; lia).
    rewrite (Z.mul_comm 256 (256 ^ Z.of_nat n)).
    rewrite (Z.rem_mul_r v (256 ^ Z.of_nat n) 256) by lia.
    lia.
Qed.

Lemma be_decode_encode (n : nat) (v : Z) :
  0 <= v < 256 ^ Z.of_nat n -> be_decode (be_encode n v) = v.
Proof.
  intros Hv. unfold be_decode. rewrite be_decode_from.
  rewrite Z.mod_small by exact Hv. lia.
Qed.

Lemma to_int32_wrap (e : Z) :
  -2147483648 <= e < 2147483648 -> to_int32 (e mod 4294967296) = e.
Proof.
  intros He. unfold to_int32.
  destruct (Z.ltb_spec (e mod 4294967296) 2147483648) as [Hlt|Hge];
    Z.div_mod_to_equations; lia.
Qed.

Lemma to_int_not_nil (z : Z) : Z.to_int z <> Decimal.Pos Decimal.Nil /\
                               Z.to_int z <> Decimal.Neg Decimal.Nil.
Proof.
  destruct z as [|p|p]; simpl; split; try discriminate;
    intros [= Hnil]; exact (DecimalPos.Unsigned.to_uint_nonnil p Hnil).
Qed.

(** The decimal rendering of [%d] determines the number. *)
Lemma fmt_d_inj (a b : Z) : fmt_d a = fmt_d b -> a = b.
Proof.
  unfold fmt_d. intros Heq.
  destruct (to_int_not_nil a) as [Ha1 Ha2], (to_int_not_nil b) as [Hb1 Hb2].
  pose proof (NilZero.isi (Z.to_int a) Ha1 Ha2) as Hpa.
  pose proof (NilZero.isi (Z.to_int b) Hb1 Hb2) as Hpb.
  rewrite Heq, Hpb in Hpa. injection Hpa as Hab.
  apply DecimalZ.to_int_inj. symmetry. exact Hab.
Qed.

Lemma wrap16_distinct (first a b : Z) :
  0 <= a < 65536 -> 0 <= b < 65536 -> a <> b ->
  wrap16 (first + a) <> wrap16 (first + b).
Proof.
  unfold wrap16. intros Ha Hb Hab Heq.
  Z.div_mod_to_equations. lia.
Qed.

End WireFacts.

(** ** The server-message decoder *)

Lemma fill_app_replicate {A : Type} (z : A) (xs pre : list A) :
  fill (length pre) xs (pre ++ replicate (length xs) z) = pre ++ xs.
Proof.
  revert pre. induction xs as [|x xs IH]; intros pre; simpl.
  - reflexivity.
  - replace (<[length pre := x]> (pre ++ z :: replicate (length xs) z))
      with ((pre ++ [x]) ++ replicate (length xs) z).
    + replace (S (length pre)) with (length (pre ++ [x]))
        by (rewrite length_app; simpl; lia).
      rewrite IH, <- app_assoc. reflexivity.
    + rewrite <- app_assoc. simpl.
      rewrite insert_app_r_alt by lia.
      rewrite Nat.sub_diag. reflexivity.
Qed.

Lemma fill_replicate {A : Type} (z : A) (xs : list A) :
  fill 0 xs (replicate (length xs) z) = xs.
Proof. exact (fill_app_replicate z xs []). Qed.

Section DecoderFacts.
Import Server.
Context {Encoding : Type} `{EncodingPkg Encoding}.

Local Abbreviation ClientConn := (@Server.ClientConn Encoding).
Local Abbreviation state := (@Server.state Encoding).
Local Abbreviation dec := (@Server.dec Encoding).

Lemma bind_inl {A B} (m : dec A) (k : A -> dec B) (st st' : state) (a : A) :
  m st = (inl a, st') -> bind m k st = k a st'.
Proof. intros Hm. unfold bind. rewrite Hm. reflexivity. Qed.

Lemma bind_inr {A B} (m : dec A) (k : A -> dec B) (st st' : state) (e : error) :
  m st = (inr e, st') -> bind m k st = (inr e, st').
Proof. intros Hm. unfold bind. rewrite Hm. reflexivity. Qed.

Lemma read_app (n : nat) (c : ClientConn) (bs rest : list Z) :
  length bs = n -> read n (c, bs ++ rest) = (inl bs, (c, rest)).
Proof. intros Hlen. unfold read. rewrite ReadFull_app by exact Hlen. reflexivity. Qed.

Lemma read_1 (c : ClientConn) (b : Z) (rest : list Z) :
  read 1 (c, b :: rest) = (inl [b], (c, rest)).
Proof. reflexivity. Qed.

Lemma receive_app (n : nat) (c : ClientConn) (r bs rest : list Z) :
  length bs = n -> c_stream c = bs ++ rest ->
  receive n (c, r) = (inl bs, (with_stream c rest, r)).
Proof.
  intros Hlen Hc. unfold receive. rewrite Hc, ReadFull_app by exact Hlen.
  reflexivity.
Qed.

Lemma read_uint16_app (c : ClientConn) (v : Z) (rest : list Z) :
  0 <= v < 65536 ->
  read_uint16 (c, be_encode 2 v ++ rest) = (inl v, (c, rest)).
Proof.
  intros Hv. unfold read_uint16.
  rewrite (bind_inl _ _ _ _ _ (read_app 2 c _ rest (be_encode_length 2 v))).
  unfold ret. rewrite be_decode_encode; [reflexivity|].
  change (256 ^ Z.of_nat 2) with 65536. exact Hv.
Qed.

Lemma read_uint32_app (c : ClientConn) (v : Z) (rest : list Z) :
  0 <= v < 4294967296 ->
  read_uint32 (c, be_encode 4 v ++ rest) = (inl v, (c, rest)).
Proof.
  intros Hv. unfold read_uint32.
  rewrite (bind_inl _ _ _ _ _ (read_app 4 c _ rest (be_encode_length 4 v))).
  unfold ret. rewrite be_decode_encode; [reflexivity|].
  change (256 ^ Z.of_nat 4) with 4294967296. exact Hv.
Qed.

(** *** SetColorMapEntries *)

Lemma store_colors_other (first : Z) (cols : list Color) (i : nat)
    (m : gmap Z Color) (k : Z) :
  (forall j, (j < length cols)%nat -> k <> wrap16 (first + Z.of_nat (i + j))) ->
  store_colors first i cols m !! k = m !! k.
Proof.
  revert i m. induction cols as [|col cols IH]; intros i m Hk; simpl.
  - reflexivity.
  - rewrite IH.
    + apply lookup_insert_ne. intros Heq.
      apply (Hk 0%nat); [simpl; lia|].
      rewrite Nat.add_0_r. symmetry. exact Heq.
    + intros j Hj. replace (S i + j)%nat with (i + S j)%nat by lia.
      apply Hk. simpl. lia.
Qed.

Lemma store_colors_lookup (first : Z) (cols : list Color) (i j : nat)
    (m : gmap Z Color) (col : Color) :
  Z.of_nat i + Z.of_nat (length cols) <= 65536 -> cols !! j = Some col ->
  store_colors first i cols m !! wrap16 (first + Z.of_nat (i + j)) = Some col.
Proof.
  revert i j m. induction cols as [|col0 cols IH]; intros i j m Hlen Hj.
  - discriminate.
  - cbn [length] in Hlen. destruct j as [|j]; simpl in Hj |- *.
    + injection Hj as ->. rewrite Nat.add_0_r.
      rewrite store_colors_other; [apply lookup_insert_eq|].
      intros j Hj. apply wrap16_distinct; lia.
    + replace (i + S j)%nat with (S i + j)%nat by lia.
      apply IH; [lia | exact Hj].
Qed.

Lemma color_loop_ok (first : Z) (cols : list Color) :
  Forall valid_Color cols ->
  forall (i : nat) (colors : list Color) (c : ClientConn) (rest : list Z),
  color_loop first (length cols) i colors (c, flat_map color_bytes cols ++ rest) =
  (inl (fill i cols colors),
   (with_colorMap c (store_colors first i cols (colorMap c)), rest)).
Proof.
  induction 1 as [|col cols (HR & HG & HB) Hcols IH]; intros i colors c rest.
  - destruct c. reflexivity.
  - cbn [length color_loop flat_map]. unfold color_bytes at 1.
    rewrite <- !app_assoc.
    rewrite (bind_inl _ _ _ _ _ (read_uint16_app c (R col) _ HR)).
    rewrite (bind_inl _ _ _ _ _ (read_uint16_app c (G col) _ HG)).
    rewrite (bind_inl _ _ _ _ _ (read_uint16_app c (B col) _ HB)).
    unfold bind at 1. cbn [set_colorMap].
    rewrite IH. destruct col. reflexivity.
Qed.

(** C6. A SetColorMapEntries message on the wire (one padding byte,
    firstColor, the number of colors, the colors) decodes to a message
    with the same firstColor and the same colors in order, consumes
    exactly those bytes, and leaves the connection's color map as the map
    before with color [i] written at key [firstColor + i] modulo 2^16, in
    index order, overwriting: each such key holds its color afterwards and
    every other key holds what it held. *)
Theorem SetColorMapEntries_Read_spec (c : ClientConn) (pad first : Z)
    (cols : list Color) (rest : list Z) :
  0 <= first < 65536 -> Z.of_nat (length cols) < 65536 -> Forall valid_Color cols ->
  let r := pad :: be_encode 2 first ++ be_encode 2 (Z.of_nat (length cols)) ++
           flat_map color_bytes cols ++ rest in
  let c' := with_colorMap c (store_colors first 0 cols (colorMap c)) in
  SetColorMapEntries_Read c r =
    (Some (MsgSetColorMapEntries {| FirstColor := first; Colors := cols |}),
     None, (c', rest)) /\
  (forall (i : nat) col, cols !! i = Some col ->
     colorMap c' !! wrap16 (first + Z.of_nat i) = Some col) /\
  (forall k, (forall i, (i < length cols)%nat -> k <> wrap16 (first + Z.of_nat i)) ->
     colorMap c' !! k = colorMap c !! k).
Proof.
  intros Hfirst Hlen Hcols r c'. split; [|split].
  - unfold SetColorMapEntries_Read, finish, r.
    rewrite (bind_inl _ _ _ _ _ (read_1 c pad _)).
    rewrite (bind_inl _ _ _ _ _ (read_uint16_app c first _ Hfirst)).
    rewrite (bind_inl _ _ _ _ _
               (read_uint16_app c (Z.of_nat (length cols)) _ ltac:(lia))).
    rewrite Nat2Z.id.
    rewrite (bind_inl _ _ _ _ _ (color_loop_ok first cols Hcols 0 _ c rest)).
    unfold ret. rewrite fill_replicate. reflexivity.
  - intros i col Hi. unfold c'. cbn [colorMap with_colorMap].
    apply (store_colors_lookup first cols 0 i); [simpl; lia | exact Hi].
  - intros k Hk. unfold c'. cbn [colorMap with_colorMap].
    apply store_colors_other. intros j Hj. simpl. apply Hk. exact Hj.
Qed.

(** *** ServerCutText *)

(** What [ServerCutText.Read] decodes: one padding byte, a 32-bit length
    and that many bytes of text. *)
Lemma ServerCutText_Read_one_pad (c : ClientConn) (pad : Z)
    (payload rest : list Z) :
  Z.of_nat (length payload) < 4294967296 ->
  ServerCutText_Read c
    (pad :: be_encode 4 (Z.of_nat (length payload)) ++ payload ++ rest) =
  (Some (MsgServerCutText {| Text := string_of_bytes payload |}), None, (c, rest)).
Proof.
  intros Hlen. unfold ServerCutText_Read, finish.
  rewrite (bind_inl _ _ _ _ _ (read_1 c pad _)).
  rewrite (bind_inl _ _ _ _ _
             (read_uint32_app c (Z.of_nat (length payload)) _ ltac:(lia))).
  rewrite Nat2Z.id.
  rewrite (bind_inl _ _ _ _ _ (read_app _ c payload rest eq_refl)).
  reflexivity.
Qed.

(** *** FramebufferUpdate *)

Lemma rect_bytes_length (m : RectangleMessage) : length (rect_bytes m) = 12%nat.
Proof. reflexivity. Qed.

Lemma receive_RectangleMessage_app (c : ClientConn) (r : list Z)
    (m : RectangleMessage) (rest : list Z) :
  valid_rect m -> c_stream c = rect_bytes m ++ rest ->
  receive_RectangleMessage (c, r) = (inl m, (with_stream c rest, r)).
Proof.
  intros (HX & HY & HW & HH & HE) Hc. unfold receive_RectangleMessage.
  rewrite (bind_inl _ _ _ _ _
             (receive_app 12 c r _ rest (rect_bytes_length m) Hc)).
  unfold ret. f_equal. destruct m as [x y w h e]. cbn [msg_X msg_Y msg_Width
    msg_Height msg_Encoding] in *. unfold rect_bytes.
  cbn [msg_X msg_Y msg_Width msg_Height msg_Encoding].
  change (take 2 (be_encode 2 x ++ be_encode 2 y ++ be_encode 2 w ++
                  be_encode 2 h ++ be_encode 4 (e mod 4294967296)))
    with (be_encode 2 x).
  change (take 2 (drop 2 (be_encode 2 x ++ be_encode 2 y ++ be_encode 2 w ++
                  be_encode 2 h ++ be_encode 4 (e mod 4294967296))))
    with (be_encode 2 y).
  change (take 2 (drop 4 (be_encode 2 x ++ be_encode 2 y ++ be_encode 2 w ++
                  be_encode 2 h ++ be_encode 4 (e mod 4294967296))))
    with (be_encode 2 w).
  change (take 2 (drop 6 (be_encode 2 x ++ be_encode 2 y ++ be_encode 2 w ++
                  be_encode 2 h ++ be_encode 4 (e mod 4294967296))))
    with (be_encode 2 h).
  change (take 4 (drop 8 (be_encode 2 x ++ be_encode 2 y ++ be_encode 2 w ++
                  be_encode 2 h ++ be_encode 4 (e mod 4294967296))))
    with (be_encode 4 (e mod 4294967296)).
  rewrite !(be_decode_encode 2) by (change (256 ^ Z.of_nat 2) with 65536; lia).
  rewrite (be_decode_encode 4)
    by (change (256 ^ Z.of_nat 4) with 4294967296;
        apply Z.mod_pos_bound; lia).
  rewrite to_int32_wrap by exact HE. reflexivity.
Qed.

(** The loop over the rectangles stops at the first header whose encoding
    id the registry does not hold: the error names the id and nothing
    after that header is read. *)
Lemma rect_loop_unsupported (encMap : gmap Z Encoding)
    (pre : list RectangleMessage) (bad : RectangleMessage) (rest : list Z) :
  Forall valid_rect pre -> valid_rect bad ->
  Forall (fun m => is_Some (encMap !! msg_Encoding m)) pre ->
  encMap !! msg_Encoding bad = None ->
  forall (todo i : nat) (rects : list Rectangle) (c : ClientConn) (r : list Z),
  (length pre < todo)%nat ->
  c_stream c = flat_map rect_bytes pre ++ rect_bytes bad ++ rest ->
  rect_loop encMap todo i rects (c, r) =
  (inr (Errorf ("unsupported encoding type: " ++ fmt_d (msg_Encoding bad))),
   (with_stream c rest, r)).
Proof.
  intros Hpre Hbad Hreg Hnone.
  induction pre as [|m pre IH]; intros todo i rects c r Htodo Hc.
  - destruct todo as [|todo]; [simpl in Htodo; lia|].
    cbn [rect_loop].
    rewrite (bind_inl _ _ _ _ _
               (receive_RectangleMessage_app c r bad rest Hbad Hc)).
    rewrite Hnone. reflexivity.
  - destruct todo as [|todo]; [simpl in Htodo; lia|].
    apply Forall_cons_1 in Hpre as [Hm Hpre].
    apply Forall_cons_1 in Hreg as [[enc Henc] Hreg].
    cbn [flat_map] in Hc. rewrite <- app_assoc in Hc.
    cbn [rect_loop].
    rewrite (bind_inl _ _ _ _ _
               (receive_RectangleMessage_app c r m _ Hm Hc)).
    rewrite Henc.
    rewrite (IH Hpre Hreg todo (S i) _ (with_stream c _) r);
      [reflexivity | simpl in Htodo; lia | reflexivity].
Qed.

(** C4. A FramebufferUpdate on the wire announces [n] rectangles; the
    headers [pre] all name registered encodings and the next header,
    [bad], names an id that the registry built for this decode does not
    hold. Decoding returns no message and the error naming that id (the
    rendering of the id determines it), and the connection is left right
    after the offending header: nothing further is read. *)
Theorem FramebufferUpdate_Read_unsupported (c : ClientConn) (r : list Z)
    (pad n : Z) (pre : list RectangleMessage) (bad : RectangleMessage)
    (rest : list Z) :
  c_stream c = pad :: be_encode 2 n ++ flat_map rect_bytes pre ++
               rect_bytes bad ++ rest ->
  0 <= n < 65536 -> Z.of_nat (length pre) < n ->
  Forall valid_rect pre -> valid_rect bad ->
  Forall (fun m => is_Some (build_encMap (Encodings c) !! msg_Encoding m)) pre ->
  build_encMap (Encodings c) !! msg_Encoding bad = None ->
  FramebufferUpdate_Read c r =
    (None,
     Some (Errorf ("unsupported encoding type: " ++ fmt_d (msg_Encoding bad))),
     (with_stream c rest, r)) /\
  forall id, fmt_d id = fmt_d (msg_Encoding bad) -> id = msg_Encoding bad.
Proof.
  intros Hc Hn Hlen Hpre Hbad Hreg Hnone.
  split; [|intros id; apply fmt_d_inj].
  unfold FramebufferUpdate_Read, finish.
  rewrite (bind_inl _ _ _ _ _
             (receive_app 1 c r [pad] _ eq_refl Hc)).
  rewrite (bind_inl _ _ _ _ _
             (receive_app 2 (with_stream c _) r (be_encode 2 n) _
                (be_encode_length 2 n) eq_refl)).
  rewrite be_decode_encode by (change (256 ^ Z.of_nat 2) with 65536; lia).
  rewrite (bind_inr _ _ _ _ _
             (rect_loop_unsupported _ pre bad rest Hpre Hbad Hreg Hnone
                (Z.to_nat n) 0 _ (with_stream c _) r ltac:(lia) eq_refl)).
  reflexivity.
Qed.

(** *** The encoding registry *)

Lemma foldl_insert_lookup (encs : list Encoding) (m0 : gmap Z Encoding) (id : Z) :
  foldl (fun (m : gmap Z Encoding) e => <[Type_ e := e]> m) m0 encs !! id =
  match last (filter (fun e => Type_ e = id) encs) with
  | Some e => Some e
  | None => m0 !! id
  end.
Proof.
  revert m0. induction encs as [|e encs IH]; intros m0; simpl.
  - reflexivity.
  - rewrite IH, filter_cons. destruct (decide (Type_ e = id)) as [Heq|Hne].
    + rewrite last_cons.
      destruct (last (filter (fun e0 => Type_ e0 = id) encs)); [reflexivity|].
      rewrite Heq. apply lookup_insert_eq.
    + destruct (last (filter (fun e0 => Type_ e0 = id) encs)); [reflexivity|].
      apply lookup_insert_ne. exact Hne.
Qed.

Lemma build_encMap_Raw (encs : list Encoding) :
  build_encMap encs !! Raw = Some (NewRawEncoding []).
Proof. unfold build_encMap. apply lookup_insert_eq. Qed.

Lemma build_encMap_other (encs : list Encoding) (id : Z) :
  id <> Raw ->
  build_encMap encs !! id = last (filter (fun e => Type_ e = id) encs).
Proof.
  intros Hid. unfold build_encMap.
  rewrite lookup_insert_ne by (intros Heq; apply Hid; symmetry; exact Heq).
  rewrite foldl_insert_lookup, lookup_empty.
  destruct (last _); reflexivity.
Qed.

Lemma build_encMap_supplied (encs : list Encoding) (e : Encoding) :
  e ∈ encs -> is_Some (build_encMap encs !! Type_ e).
Proof.
  intros He. destruct (decide (Type_ e = Raw)) as [Heq|Hne].
  - rewrite Heq, build_encMap_Raw. eexists. reflexivity.
  - rewrite build_encMap_other by exact Hne.
    assert (e ∈ filter (fun e0 => Type_ e0 = Type_ e) encs) as Hin
      by (apply list_elem_of_filter; split; [reflexivity | exact He]).
    destruct (filter (fun e0 => Type_ e0 = Type_ e) encs) as [|x l] eqn:Hf.
    + apply elem_of_nil in Hin. contradiction.
    + rewrite last_cons. destruct (last l); eexists; reflexivity.
Qed.

(** A FramebufferUpdate of one rectangle: the rectangle carries what the
    registry of the connection's encodings holds for the id, and without
    an entry the decode fails. *)
Lemma FramebufferUpdate_Read_one (c : ClientConn) (r : list Z) (pad : Z)
    (m : RectangleMessage) (rest : list Z) :
  valid_rect m ->
  c_stream c = pad :: be_encode 2 1 ++ rect_bytes m ++ rest ->
  FramebufferUpdate_Read c r =
  match build_encMap (Encodings c) !! msg_Encoding m with
  | Some enc =>
      (Some (MsgFramebufferUpdate
               {| Msg := FramebufferUpdateMsg; NumRect := 1;
                  Rects := [ {| X := msg_X m; Y := msg_Y m;
                                Width := msg_Width m; Height := msg_Height m;
                                Enc := Some enc |} ] |}),
       None, (with_stream c rest, r))
  | None =>
      (None,
       Some (Errorf ("unsupported encoding type: " ++ fmt_d (msg_Encoding m))),
       (with_stream c rest, r))
  end.
Proof.
  intros Hm Hc. unfold FramebufferUpdate_Read, finish.
  rewrite (bind_inl _ _ _ _ _ (receive_app 1 c r [pad] _ eq_refl Hc)).
  rewrite (bind_inl _ _ _ _ _
             (receive_app 2 (with_stream c _) r (be_encode 2 1) _
                eq_refl eq_refl)).
  change (Z.to_nat (be_decode (be_encode 2 1))) with 1%nat.
  cbn [replicate].
  destruct (build_encMap (Encodings c) !! msg_Encoding m) as [enc|] eqn:Hl.
  - rewrite (bind_inl _ _ (with_stream (with_stream c _) _, r)
               (with_stream c rest, r)
               [ {| X := msg_X m; Y := msg_Y m; Width := msg_Width m;
                    Height := msg_Height m; Enc := Some enc |} ]);
      [reflexivity|].
    cbn [rect_loop].
    rewrite (bind_inl _ _ _ _ _
               (receive_RectangleMessage_app (with_stream (with_stream c _) _)
                  r m rest Hm eq_refl)).
    rewrite Hl. reflexivity.
  - rewrite (bind_inr _ _ _ _ _
               (rect_loop_unsupported _ [] m rest (List.Forall_nil _) Hm
                  (List.Forall_nil _) Hl 1 0 _ (with_stream (with_stream c _) _) r
                  ltac:(simpl; lia) eq_refl)).
    reflexivity.
Qed.

(** C5. For every encoding list, the registry built from it holds the
    built-in Raw decoder at the Raw id, whatever the caller supplied for
    that id, the empty list included; at any other id it holds the last
    caller-supplied encoding with that id, so every supplied id has an
    entry and later duplicates win. Each decode resolves ids through the
    registry of the encoding list the connection has at that decode and
    leaves that list as it is: no registry is carried from one decode to
    the next. *)
Theorem build_encMap_spec (encs : list Encoding) (c : ClientConn) (r : list Z) :
  build_encMap encs !! Raw = Some (NewRawEncoding []) /\
  (forall id, id <> Raw ->
     build_encMap encs !! id = last (filter (fun e' => Type_ e' = id) encs)) /\
  (forall e, e ∈ encs -> is_Some (build_encMap encs !! Type_ e)) /\
  (forall (pad : Z) (m : RectangleMessage) (rest : list Z),
     valid_rect m ->
     c_stream c = pad :: be_encode 2 1 ++ rect_bytes m ++ rest ->
     FramebufferUpdate_Read c r =
       match build_encMap (Encodings c) !! msg_Encoding m with
       | Some enc =>
           (Some (MsgFramebufferUpdate
                    {| Msg := FramebufferUpdateMsg; NumRect := 1;
                       Rects := [ {| X := msg_X m; Y := msg_Y m;
                                     Width := msg_Width m;
                                     Height := msg_Height m;
                                     Enc := Some enc |} ] |}),
            None, (with_stream c rest, r))
       | None =>
           (None,
            Some (Errorf ("unsupported encoding type: " ++
                          fmt_d (msg_Encoding m))),
            (with_stream c rest, r))
       end /\
     Encodings (with_stream c rest) = Encodings c).
Proof.
  split; [apply build_encMap_Raw|].
  split; [intros id Hid; apply build_encMap_other; exact Hid|].
  split; [intros e He; apply build_encMap_supplied; exact He|].
  intros pad m rest Hm Hc.
  split; [apply (FramebufferUpdate_Read_one c r pad m rest Hm Hc) | reflexivity].
Qed.

End DecoderFacts.

(** ** The decoder on concrete connections *)

Section DecoderInstances.
Import Server.

(** C2, on the code: on a stream that carries "hello" as the protocol
    lays it out (3 padding bytes, the length 5, the 5 bytes)
    [ServerCutText.Read] takes 1 byte as padding, reads the length from
    the next 4 bytes, which are the 2 other padding bytes and the top
    half of the length, hence 0, and returns the empty text having
    consumed 5 bytes. *)
Theorem ServerCutText_Read_three_pad_stream :
  let r := [0; 0; 0] ++ be_encode 4 5 ++ bytes_of_string "hello" ++ [42] in
  ServerCutText_Read (sample_conn [] []) r =
    (Some (MsgServerCutText {| Text := EmptyString |}), None,
     (sample_conn [] [], [0; 5; 104; 101; 108; 108; 111; 42])) /\
  length r = (3 + 4 + 5 + 1)%nat /\
  string_of_bytes (bytes_of_string "hello") = "hello"%string.
Proof. repeat split. Qed.

Lemma FramebufferUpdate_Read_unsupported_witness :
  @FramebufferUpdate_Read _ sample_pkg
    (sample_conn ([0] ++ be_encode 2 3 ++ rect_bytes (sample_rect 1 2 3 4 0) ++
                  rect_bytes (sample_rect 5 6 7 8 (-7)) ++
                  rect_bytes (sample_rect 0 0 1 1 0))
                 [SampleCodec 5 "tiles"]) [] =
  (None, Some (Errorf "unsupported encoding type: -7"),
   (sample_conn (rect_bytes (sample_rect 0 0 1 1 0)) [SampleCodec 5 "tiles"], [])).
Proof.
  apply (@FramebufferUpdate_Read_unsupported _ sample_pkg
           (sample_conn _ [SampleCodec 5 "tiles"]) [] 0 3
           [sample_rect 1 2 3 4 0] (sample_rect 5 6 7 8 (-7))
           (rect_bytes (sample_rect 0 0 1 1 0))).
  - reflexivity.
  - lia.
  - simpl. lia.
  - repeat constructor; simpl; lia.
  - repeat split; simpl; lia.
  - constructor; [|constructor]. exists (SampleRaw []). reflexivity.
  - reflexivity.
Defined.


Lemma build_encMap_spec_witness :
  let encs := [SampleCodec 5 "first"; SampleCodec 0 "caller raw";
               SampleCodec 5 "second"] in
  @build_encMap _ sample_pkg [] !! 0 = Some (SampleRaw []) /\
  @build_encMap _ sample_pkg encs !! 0 = Some (SampleRaw []) /\
  @build_encMap _ sample_pkg encs !! 5 = Some (SampleCodec 5 "second") /\
  @FramebufferUpdate_Read _ sample_pkg
    (sample_conn ([0] ++ be_encode 2 1 ++ rect_bytes (sample_rect 1 2 3 4 5))
       encs) [] =
  (Some (MsgFramebufferUpdate
           {| Msg := 0; NumRect := 1;
              Rects := [ {| X := 1; Y := 2; Width := 3; Height := 4;
                            Enc := Some (SampleCodec 5 "second") |} ] |}),
   None, (sample_conn [] encs, [])).
Proof.
  intros encs.
  destruct (@build_encMap_spec _ sample_pkg []
              (sample_conn ([0] ++ be_encode 2 1 ++
                            rect_bytes (sample_rect 1 2 3 4 5)) encs) [])
    as (Hraw0 & _ & _ & Hdecode).
  destruct (@build_encMap_spec _ sample_pkg encs (sample_conn [] encs) [])
    as (Hraw & Hid & _ & _).
  split; [exact Hraw0|]. split; [exact Hraw|].
  split; [rewrite Hid by discriminate; reflexivity|].
  destruct (Hdecode 0 (sample_rect 1 2 3 4 5) []) as [Hread _].
  - repeat split; simpl; lia.
  - reflexivity.
  - exact Hread.
Defined.

Lemma SetColorMapEntries_Read_spec_witness :
  let cols := [ {| R := 1; G := 2; B := 3 |}; {| R := 4; G := 5; B := 6 |} ] in
  let r := [0] ++ be_encode 2 10 ++ be_encode 2 2 ++
           flat_map color_bytes cols ++ [99] in
  exists c',
    SetColorMapEntries_Read (sample_conn [] []) r =
      (Some (MsgSetColorMapEntries {| FirstColor := 10; Colors := cols |}),
       None, (c', [99])) /\
    colorMap c' !! 10 = Some {| R := 1; G := 2; B := 3 |} /\
    colorMap c' !! 11 = Some {| R := 4; G := 5; B := 6 |} /\
    colorMap c' !! 12 = None.
Proof.
  intros cols r.
  destruct (SetColorMapEntries_Read_spec (sample_conn [] []) 0 10 cols [99])
    as (Hread & Hin & Hout).
  - lia.
  - simpl. lia.
  - repeat constructor; simpl; lia.
  - eexists. split; [exact Hread|].
    split; [apply (Hin 0%nat); reflexivity|].
    split; [apply (Hin 1%nat); reflexivity|].
    rewrite Hout; [reflexivity|].
    intros i Hi. simpl in Hi. unfold wrap16.
    assert (i = 0 \/ i = 1)%nat as [-> | ->] by lia; discriminate.
Defined.

End DecoderInstances.

(** * Further properties of the code *)

(** ** The handshakes on short streams and failing writes *)

Section HandshakeEdges.
Import Security.

Lemma ReadFull_short (n : nat) (r : list Z) :
  (length r < n)%nat -> ReadFull n r = (inr (eof_error r), []).
Proof.
  intros Hlen. unfold ReadFull.
  assert ((n <=? length r)%nat = false) as -> by (apply Nat.leb_gt; exact Hlen).
  destruct r; reflexivity.
Qed.

Lemma conn_Read_short (n : nat) (conn : Conn) :
  (length (inbound conn) < n)%nat ->
  conn_Read n conn = (inr (eof_error (inbound conn)), after_short_read conn).
Proof.
  intros Hlen. unfold conn_Read. rewrite ReadFull_short by exact Hlen.
  reflexivity.
Qed.

Lemma bytes_of_string_nil (s : string) :
  bytes_of_string s = [] <-> s = EmptyString.
Proof. destruct s; simpl; split; intros Heq; congruence. Qed.

Lemma take_8_nil (l : list Z) : take 8 l = [] -> l = [].
Proof. destruct l; [reflexivity | discriminate]. Qed.

Context `{CipherPkg}.

Lemma encode_length (auth : ClientAuthVNC) (c : list Z) :
  length c = 16%nat -> length (fst (encode auth c)) = 16%nat.
Proof.
  intros Hc. unfold encode.
  destruct (NewCipher (derive_key auth)) as [cipher|err]; [|exact Hc].
  cbn [fst]. rewrite encrypt_blocks_unroll, encrypt_at_halves by exact Hc.
  apply halves_length. exact Hc.
Qed.

(** X1. The challenge is read in one piece: on a stream that holds fewer than
    16 bytes both handshakes return the end-of-stream error of the read,
    [io.EOF] when nothing was left and [io.ErrUnexpectedEOF] otherwise,
    and write nothing. *)
Theorem Handshake_short_read (pw : string) (conn : Conn) :
  (length (inbound conn) < 16)%nat ->
  (pw <> EmptyString ->
   Handshake {| Password := pw |} conn =
   (Some (eof_error (inbound conn)), after_short_read conn)) /\
  Legacy.Handshake {| Legacy.Password := pw |} conn =
  (Some (eof_error (inbound conn)), after_short_read conn).
Proof.
  intros Hlen. split.
  - intros Hpw. unfold Handshake. apply String.eqb_neq in Hpw.
    cbn [Password]. rewrite Hpw. unfold vncAuthChallengeSize.
    rewrite conn_Read_short by exact Hlen. reflexivity.
  - unfold Legacy.Handshake. rewrite conn_Read_short by exact Hlen.
    reflexivity.
Qed.

(** X2. A failing write ends the handshake with the error of the write: the
    challenge has been consumed, nothing has been appended to what the
    peer received. *)
Theorem Handshake_write_failure (pw : string) (conn : Conn) (c rest : list Z)
    (e : error) :
  inbound conn = c ++ rest -> length c = 16%nat -> write_failure conn = Some e ->
  let after :=
    {| inbound := rest; outbound := outbound conn;
       write_failure := Some e; io_calls := S (S (io_calls conn)) |} in
  (pw <> EmptyString -> Handshake {| Password := pw |} conn = (Some e, after)) /\
  (forall cipher,
     NewCipher (Legacy.derive_key {| Legacy.Password := pw |}) = inl cipher ->
     Legacy.Handshake {| Legacy.Password := pw |} conn = (Some e, after)).
Proof.
  intros Hin Hc Hwr after. split.
  - intros Hpw. rewrite (Handshake_read _ conn c rest) by assumption.
    unfold conn_Write. cbn [write_failure]. rewrite Hwr. reflexivity.
  - intros cipher Hnew.
    rewrite (Legacy_Handshake_read _ conn c rest cipher Hin Hc Hnew).
    unfold conn_Write. cbn [write_failure]. rewrite Hwr. reflexivity.
Qed.

(** X3. What [Handshake] of [security.go] does to the connection, on every
    input: it never changes whether writes fail; when it returns no error
    it has consumed exactly 16 bytes and appended exactly 16 bytes, and
    the password was not empty; when it returns an error it has appended
    nothing. *)
Theorem Handshake_io_invariant (auth : ClientAuthVNC) (conn : Conn) :
  let res := Handshake auth conn in
  write_failure (snd res) = write_failure conn /\
  (fst res = None ->
   Password auth <> EmptyString /\
   exists c resp,
     inbound conn = c ++ inbound (snd res) /\ length c = 16%nat /\
     length resp = 16%nat /\ outbound (snd res) = outbound conn ++ resp) /\
  (fst res <> None -> outbound (snd res) = outbound conn).
Proof.
  unfold Handshake.
  destruct (String.eqb (Password auth) EmptyString) eqn:Hpw.
  { cbn. split; [reflexivity|]. split; [discriminate | reflexivity]. }
  apply String.eqb_neq in Hpw.
  unfold conn_Read, ReadFull, vncAuthChallengeSize.
  destruct (16 <=? length (inbound conn))%nat eqn:Hlen.
  - apply Nat.leb_le in Hlen.
    pose proof (encode_length auth (take 16 (inbound conn))
                  ltac:(rewrite length_take; lia)) as Henc.
    destruct (encode auth (take 16 (inbound conn))) as [c' e'].
    cbn [fst] in Henc. unfold conn_Write. cbn [write_failure].
    destruct (write_failure conn) as [e|] eqn:Hwr; cbn.
    + split; [reflexivity|]. split; [discriminate | reflexivity].
    + split; [reflexivity|]. split; [|congruence].
      intros _. split; [exact Hpw|].
      exists (take 16 (inbound conn)), c'.
      rewrite take_drop, length_take. repeat split; [lia | exact Henc].
  - destruct (inbound conn); cbn;
      (split; [reflexivity|]; split; [discriminate | reflexivity]).
Qed.

(** X4. What [Handshake] of [client_auth_vnc.go] does to the connection, on
    every input: when it returns no error the cipher accepted the key, 16
    bytes were consumed and the two encrypted halves of the challenge were
    appended; when it returns an error nothing was appended; and when the
    cipher package rejects the key of a challenge read in full, that error
    is what it returns. *)
Theorem Legacy_Handshake_io_invariant (auth : Legacy.ClientAuthVNC) (conn : Conn) :
  let res := Legacy.Handshake auth conn in
  write_failure (snd res) = write_failure conn /\
  (fst res = None ->
   exists c cipher,
     inbound conn = c ++ inbound (snd res) /\ length c = 16%nat /\
     NewCipher (Legacy.derive_key auth) = inl cipher /\
     outbound (snd res) =
       outbound conn ++ Encrypt cipher (take 8 c) ++ Encrypt cipher (drop 8 c)) /\
  (fst res <> None -> outbound (snd res) = outbound conn) /\
  (forall err, NewCipher (Legacy.derive_key auth) = inr err ->
     (16 <= length (inbound conn))%nat -> fst res = Some err).
Proof.
  unfold Legacy.Handshake, conn_Read, ReadFull.
  destruct (16 <=? length (inbound conn))%nat eqn:Hlen.
  - apply Nat.leb_le in Hlen.
    assert (length (take 16 (inbound conn)) = 16%nat) as Hc
      by (rewrite length_take; lia).
    destruct (NewCipher (Legacy.derive_key auth)) as [cipher|err] eqn:Hnew.
    + rewrite encrypt_at_halves by exact Hc.
      unfold conn_Write. cbn [write_failure].
      destruct (write_failure conn) as [e|] eqn:Hwr; cbn.
      * split; [reflexivity|]. split; [discriminate|].
        split; [reflexivity | discriminate].
      * split; [reflexivity|]. split; [|split; [congruence | discriminate]].
        intros _. exists (take 16 (inbound conn)), cipher.
        rewrite take_drop. repeat split. exact Hc.
    + cbn. split; [reflexivity|]. split; [discriminate|].
      split; [reflexivity|]. intros err' [= ->] _. reflexivity.
  - apply Nat.leb_gt in Hlen.
    destruct (inbound conn); cbn;
      (split; [reflexivity|]; split; [discriminate|];
       split; [reflexivity|]; intros err _ Hge; simpl in Hlen, Hge; lia).
Qed.

(** X5. Only the first 8 bytes of the password matter to either handshake:
    two passwords with the same first 8 bytes give the same result and
    leave the same connection state, on every stream. *)
Theorem Handshake_password_prefix (auth auth' : ClientAuthVNC) (conn : Conn) :
  take 8 (bytes_of_string (Password auth')) =
  take 8 (bytes_of_string (Password auth)) ->
  Handshake auth' conn = Handshake auth conn /\
  Legacy.Handshake {| Legacy.Password := Password auth' |} conn =
  Legacy.Handshake {| Legacy.Password := Password auth |} conn.
Proof.
  intros Hpre.
  pose proof (derive_key_truncates auth auth' Hpre) as Hkey.
  split.
  - unfold Handshake.
    assert (String.eqb (Password auth') EmptyString =
            String.eqb (Password auth) EmptyString) as ->.
    { destruct (String.eqb_spec (Password auth) EmptyString) as [He|Hne].
      - rewrite He in Hpre. cbn in Hpre. apply take_8_nil in Hpre.
        apply bytes_of_string_nil in Hpre. rewrite Hpre. reflexivity.
      - apply String.eqb_neq. intros He'. apply Hne.
        rewrite He' in Hpre. cbn in Hpre. symmetry in Hpre.
        apply take_8_nil in Hpre. apply bytes_of_string_nil. exact Hpre. }
    unfold encode. rewrite Hkey. reflexivity.
  - unfold Legacy.Handshake.
    change (Legacy.derive_key {| Legacy.Password := Password auth' |})
      with (derive_key auth').
    change (Legacy.derive_key {| Legacy.Password := Password auth |})
      with (derive_key auth).
    rewrite Hkey. reflexivity.
Qed.

(** X7. The answer of [Handshake] of [security.go]: with a password, a
    challenge read in full, a cipher that accepts the key and a working
    write, the handshake succeeds after one read and one write, having
    consumed the 16 challenge bytes and appended their two encrypted
    halves, the first half first, to what the peer received earlier. *)
Theorem Handshake_response (pw : string) (conn : Conn) (c rest : list Z)
    (cipher : Block) :
  pw <> EmptyString -> inbound conn = c ++ rest -> length c = 16%nat ->
  write_failure conn = None ->
  NewCipher (derive_key {| Password := pw |}) = inl cipher ->
  Handshake {| Password := pw |} conn =
  (None, {| inbound := rest;
            outbound := outbound conn ++
                        Encrypt cipher (take 8 c) ++ Encrypt cipher (drop 8 c);
            write_failure := None;
            io_calls := S (S (io_calls conn)) |}).
Proof.
  intros Hpw Hin Hc Hwr Hnew.
  rewrite (Handshake_read _ conn c rest) by assumption.
  rewrite (encode_ok _ c cipher Hc Hnew).
  unfold conn_Write. cbn [write_failure fst]. rewrite Hwr. reflexivity.
Qed.

(** X19. Where the two handshakes agree and where they part. For a
    non-empty password whose derived key the cipher package accepts,
    [Handshake] of [security.go] and [Handshake] of
    [client_auth_vnc.go] return the same error value and leave the same
    connection on every stream and every write outcome; on a stream that
    presents a 16-byte challenge, with a working write, both append the
    encryption of bytes 0-7 followed by the encryption of bytes 8-15.
    For the empty password they part on every connection: [security.go]
    leaves the connection as it was, [client_auth_vnc.go] goes on to
    the read. *)
Theorem handshakes_agree_on_accepted_key :
  (forall (pw : string) (cipher : Block),
     pw <> EmptyString ->
     NewCipher (derive_key {| Password := pw |}) = inl cipher ->
     (forall conn,
        Handshake {| Password := pw |} conn =
        Legacy.Handshake {| Legacy.Password := pw |} conn) /\
     (forall conn c rest,
        inbound conn = c ++ rest -> length c = 16%nat ->
        write_failure conn = None ->
        let answered :=
          (@None error,
           {| inbound := rest;
              outbound := outbound conn ++
                          Encrypt cipher (take 8 c) ++ Encrypt cipher (drop 8 c);
              write_failure := None;
              io_calls := S (S (io_calls conn)) |}) in
        Handshake {| Password := pw |} conn = answered /\
        Legacy.Handshake {| Legacy.Password := pw |} conn = answered)) /\
  (forall conn,
     snd (Handshake {| Password := EmptyString |} conn) = conn /\
     (io_calls conn <
      io_calls (snd (Legacy.Handshake {| Legacy.Password := EmptyString |} conn)))%nat /\
     Handshake {| Password := EmptyString |} conn <>
     Legacy.Handshake {| Legacy.Password := EmptyString |} conn).
Proof.
  split.
  - intros pw cipher Hpw Hnew. split.
    + intros conn. unfold Handshake, Legacy.Handshake.
      apply String.eqb_neq in Hpw. simpl Password. rewrite Hpw.
      unfold vncAuthChallengeSize.
      destruct (conn_Read 16 conn) as [[ch|err] conn'] eqn:Hread; [|reflexivity].
      change (Legacy.derive_key {| Legacy.Password := pw |})
        with (derive_key {| Password := pw |}).
      unfold encode. rewrite Hnew. reflexivity.
    + intros conn c rest Hin Hc Hwr answered. split.
      * rewrite (Handshake_read _ conn c rest) by assumption.
        rewrite (encode_ok _ c cipher Hc Hnew).
        unfold conn_Write. cbn [write_failure fst]. rewrite Hwr. reflexivity.
      * rewrite (Legacy_Handshake_read {| Legacy.Password := pw |}
                   conn c rest cipher Hin Hc Hnew).
        unfold conn_Write. cbn [write_failure]. rewrite Hwr. reflexivity.
  - intros conn.
    assert (io_calls conn <
            io_calls (snd (Legacy.Handshake
                             {| Legacy.Password := EmptyString |} conn)))%nat
      as Hio.
    { unfold Legacy.Handshake, conn_Read.
      destruct (ReadFull 16 (inbound conn)) as [[ch|err] rest]; cbn; [|lia].
      destruct (NewCipher _) as [cipher|err]; cbn; [|lia].
      unfold conn_Write. cbn [write_failure].
      destruct (write_failure conn) as [e|]; cbn; lia. }
    split; [reflexivity|]. split; [exact Hio|].
    intros Heq. rewrite <- Heq in Hio. cbn in Hio. lia.
Qed.

End HandshakeEdges.

Section HandshakeEdgeInstances.
Import Security.

Lemma Handshake_short_read_witness :
  @Handshake mask_cipher {| Password := "secret" |} (fresh_conn [1; 2; 3]) =
    (Some ErrUnexpectedEOF, after_short_read (fresh_conn [1; 2; 3])) /\
  @Legacy.Handshake mask_cipher {| Legacy.Password := "secret" |} (fresh_conn []) =
    (Some EOF, after_short_read (fresh_conn [])).
Proof.
  split.
  - destruct (@Handshake_short_read mask_cipher "secret"%string (fresh_conn [1; 2; 3]))
      as [Hsec _]; [simpl; lia|].
    apply Hsec. discriminate.
  - destruct (@Handshake_short_read mask_cipher "secret"%string (fresh_conn []))
      as [_ Hleg]; [simpl; lia|].
    exact Hleg.
Defined.

Lemma Handshake_write_failure_witness :
  @Handshake mask_cipher {| Password := "secret" |}
    {| inbound := challenge_0_15; outbound := [7];
       write_failure := Some (ConnError "broken pipe"); io_calls := 0 |} =
  (Some (ConnError "broken pipe"),
   {| inbound := []; outbound := [7];
      write_failure := Some (ConnError "broken pipe"); io_calls := 2 |}).
Proof.
  destruct (@Handshake_write_failure mask_cipher "secret"%string
              {| inbound := challenge_0_15; outbound := [7];
                 write_failure := Some (ConnError "broken pipe");
                 io_calls := 0 |}
              challenge_0_15 [] (ConnError "broken pipe"))
    as [Hsec _]; [reflexivity | reflexivity | reflexivity |].
  apply Hsec. discriminate.
Defined.

Lemma Handshake_io_invariant_witness :
  exists c resp,
    challenge_0_15 ++ [77] =
      c ++ inbound (snd (@Handshake mask_cipher {| Password := "secret" |}
                           (fresh_conn (challenge_0_15 ++ [77])))) /\
    length c = 16%nat /\ length resp = 16%nat /\
    outbound (snd (@Handshake mask_cipher {| Password := "secret" |}
                     (fresh_conn (challenge_0_15 ++ [77])))) = [] ++ resp.
Proof.
  destruct (@Handshake_io_invariant mask_cipher {| Password := "secret" |}
              (fresh_conn (challenge_0_15 ++ [77]))) as (_ & Hok & _).
  destruct Hok as [_ Hex]; [reflexivity | exact Hex].
Defined.

Lemma Legacy_Handshake_io_invariant_witness :
  fst (@Legacy.Handshake rejecting_cipher {| Legacy.Password := "secret" |}
         (fresh_conn challenge_0_15)) = Some (CipherError "key rejected") /\
  outbound (snd (@Legacy.Handshake rejecting_cipher
                   {| Legacy.Password := "secret" |}
                   (fresh_conn challenge_0_15))) = [].
Proof.
  destruct (@Legacy_Handshake_io_invariant rejecting_cipher
              {| Legacy.Password := "secret" |} (fresh_conn challenge_0_15))
    as (_ & _ & Herr & Hrej).
  split.
  - apply Hrej; [reflexivity | simpl; lia].
  - apply Herr. discriminate.
Defined.

Lemma Handshake_password_prefix_witness :
  @Handshake mask_cipher {| Password := "password-two" |}
    (fresh_conn challenge_0_15) =
  @Handshake mask_cipher {| Password := "password-one" |}
    (fresh_conn challenge_0_15).
Proof.
  destruct (@Handshake_password_prefix mask_cipher
              {| Password := "password-one" |} {| Password := "password-two" |}
              (fresh_conn challenge_0_15)) as [Hsec _]; [reflexivity|].
  exact Hsec.
Defined.

Lemma Handshake_response_witness :
  @Handshake mask_cipher {| Password := "secret" |}
    {| inbound := challenge_0_15 ++ [77]; outbound := [5];
       write_failure := None; io_calls := 0 |} =
  (None, {| inbound := [77];
            outbound := [5; 201; 200; 203; 202; 205; 204; 207; 206;
                         193; 192; 195; 194; 197; 196; 199; 198];
            write_failure := None; io_calls := 2 |}).
Proof.
  apply (@Handshake_response mask_cipher "secret"%string
           {| inbound := challenge_0_15 ++ [77]; outbound := [5];
              write_failure := None; io_calls := 0 |}
           challenge_0_15 [77]
           (mask_block (derive_key {| Password := "secret" |})));
    [discriminate | reflexivity | reflexivity | reflexivity | reflexivity].
Defined.

Lemma handshakes_agree_on_accepted_key_witness :
  let conn := fresh_conn (challenge_0_15 ++ [77]) in
  let answered :=
    (@None error,
     {| inbound := [77];
        outbound := [201; 200; 203; 202; 205; 204; 207; 206;
                     193; 192; 195; 194; 197; 196; 199; 198];
        write_failure := None; io_calls := 2 |}) in
  @Handshake mask_cipher {| Password := "secret" |} conn = answered /\
  @Legacy.Handshake mask_cipher {| Legacy.Password := "secret" |} conn = answered.
Proof.
  destruct (@handshakes_agree_on_accepted_key mask_cipher) as [Hagree _].
  destruct (Hagree "secret"%string
              (mask_block (derive_key {| Password := "secret" |})))
    as [_ Hanswer]; [discriminate | reflexivity |].
  apply (Hanswer (fresh_conn (challenge_0_15 ++ [77])) challenge_0_15 [77]);
    reflexivity.
Defined.

End HandshakeEdgeInstances.

(** ** What the key keeps of the password *)

Section KeyRoundTrip.
Import Security.

Lemma copy_padded (src : list Z) :
  copy (make_bytes 8) src = take 8 (src ++ replicate 8 0).
Proof.
  unfold copy, make_bytes. rewrite length_replicate.
  destruct (decide (8 <= length src)%nat) as [Hge|Hlt].
  - rewrite Nat.min_l by lia.
    rewrite drop_replicate. cbn [Nat.sub replicate]. rewrite app_nil_r.
    rewrite take_app_le by lia. reflexivity.
  - rewrite Nat.min_r by lia.
    rewrite take_ge by lia. rewrite drop_replicate.
    rewrite take_app_ge by lia. rewrite take_replicate.
    f_equal. f_equal. lia.
Qed.

Lemma padded_password_range (pw : string) :
  Forall (fun b => 0 <= b < 256) (padded_password pw).
Proof.
  unfold padded_password. apply Forall_take, Forall_app. split.
  - apply bytes_of_string_range.
  - apply Forall_replicate. lia.
Qed.

Lemma map_reverse_reverse (l : list Z) :
  Forall (fun b => 0 <= b < 256) l ->
  map Legacy.reverse (map swap_bits l) = l.
Proof.
  induction 1 as [|b l Hb Hl IH]; simpl; [reflexivity|].
  rewrite IH. f_equal. apply reverse_reverse. exact Hb.
Qed.

(** X6. The key is the bit-mirror of the first 8 password bytes, zero-padded,
    and mirroring the key again gives those 8 bytes back: the derivation
    loses nothing but the bytes past the eighth, and two passwords have
    the same key exactly when their zero-padded 8-byte prefixes agree (so
    a password shorter than 8 bytes and the same password followed by
    zero bytes share a key). *)
Theorem derive_key_round_trip (auth auth' : ClientAuthVNC) :
  derive_key auth = map swap_bits (padded_password (Password auth)) /\
  map Legacy.reverse (derive_key auth) = padded_password (Password auth) /\
  (derive_key auth = derive_key auth' <->
   padded_password (Password auth) = padded_password (Password auth')).
Proof.
  assert (forall a, derive_key a = map swap_bits (padded_password (Password a)))
    as Hkey by (intros a; unfold derive_key; rewrite copy_padded; reflexivity).
  assert (forall a, map Legacy.reverse (derive_key a) = padded_password (Password a))
    as Hback
    by (intros a; rewrite Hkey; apply map_reverse_reverse, padded_password_range).
  split; [apply Hkey|]. split; [apply Hback|]. split.
  - intros Heq. rewrite <- (Hback auth), <- (Hback auth'), Heq. reflexivity.
  - intros Heq. rewrite (Hkey auth), (Hkey auth'), Heq. reflexivity.
Qed.

Lemma derive_key_round_trip_witness :
  map Legacy.reverse (derive_key {| Password := "abc" |}) =
    [97; 98; 99; 0; 0; 0; 0; 0] /\
  derive_key {| Password := "abc" |} =
  derive_key {| Password := String "a" (String "b" (String "c" (String zero EmptyString))) |}.
Proof.
  destruct (derive_key_round_trip {| Password := "abc" |}
              {| Password := String "a" (String "b" (String "c" (String zero EmptyString))) |})
    as (_ & Hback & Hiff).
  split; [exact Hback | apply Hiff; reflexivity].
Defined.

End KeyRoundTrip.

(** ** FramebufferUpdate: success and truncation *)

Section FramebufferUpdateFacts.
Import Server.
Context {Encoding : Type} `{EncodingPkg Encoding}.

Local Abbreviation ClientConn := (@Server.ClientConn Encoding).
Local Abbreviation state := (@Server.state Encoding).
Local Abbreviation dec := (@Server.dec Encoding).

Lemma receive_short (n : nat) (c : ClientConn) (r : list Z) :
  (length (c_stream c) < n)%nat ->
  receive n (c, r) = (inr (eof_error (c_stream c)), (with_stream c [], r)).
Proof.
  intros Hlen. unfold receive. rewrite ReadFull_short by exact Hlen.
  reflexivity.
Qed.

Lemma read_short (n : nat) (c : ClientConn) (r : list Z) :
  (length r < n)%nat -> read n (c, r) = (inr (eof_error r), (c, [])).
Proof.
  intros Hlen. unfold read. rewrite ReadFull_short by exact Hlen.
  reflexivity.
Qed.

Lemma rect_loop_ok (encMap : gmap Z Encoding) (ms : list RectangleMessage)
    (rest : list Z) :
  Forall valid_rect ms ->
  Forall (fun m => is_Some (encMap !! msg_Encoding m)) ms ->
  forall (i : nat) (rects : list Rectangle) (c : ClientConn) (r : list Z),
  c_stream c = flat_map rect_bytes ms ++ rest ->
  rect_loop encMap (length ms) i rects (c, r) =
  (inl (fill i (map (rect_of encMap) ms) rects), (with_stream c rest, r)).
Proof.
  intros Hval Hreg.
  induction ms as [|m ms IH]; intros i rects c r Hc.
  - destruct c. cbn in Hc. subst. reflexivity.
  - apply Forall_cons_1 in Hval as [Hm Hval].
    apply Forall_cons_1 in Hreg as [[enc Henc] Hreg].
    cbn [flat_map] in Hc. rewrite <- app_assoc in Hc.
    cbn [length rect_loop map fill].
    rewrite (bind_inl _ _ _ _ _ (receive_RectangleMessage_app c r m _ Hm Hc)).
    replace (rect_of encMap m)
      with {| X := msg_X m; Y := msg_Y m; Width := msg_Width m;
              Height := msg_Height m; Enc := Some enc |}
      by (unfold rect_of; rewrite Henc; reflexivity).
    rewrite Henc.
    rewrite (IH Hval Hreg (S i) _ (with_stream c _) r eq_refl). reflexivity.
Qed.

Lemma FramebufferUpdate_Read_registered (c : ClientConn) (r : list Z) (pad : Z)
    (ms : list RectangleMessage) (rest : list Z) :
  c_stream c = pad :: be_encode 2 (Z.of_nat (length ms)) ++
               flat_map rect_bytes ms ++ rest ->
  Z.of_nat (length ms) < 65536 ->
  Forall valid_rect ms ->
  Forall (fun m => is_Some (build_encMap (Encodings c) !! msg_Encoding m)) ms ->
  FramebufferUpdate_Read c r =
  (Some (MsgFramebufferUpdate
           {| Msg := FramebufferUpdateMsg; NumRect := Z.of_nat (length ms);
              Rects := map (rect_of (build_encMap (Encodings c))) ms |}),
   None, (with_stream c rest, r)).
Proof.
  intros Hc Hlen Hval Hreg. unfold FramebufferUpdate_Read, finish.
  rewrite (bind_inl _ _ _ _ _ (receive_app 1 c r [pad] _ eq_refl Hc)).
  rewrite (bind_inl _ _ _ _ _
             (receive_app 2 (with_stream c _) r _ _
                (be_encode_length 2 _) eq_refl)).
  rewrite be_decode_encode by (change (256 ^ Z.of_nat 2) with 65536; lia).
  rewrite Nat2Z.id.
  rewrite (bind_inl _ _ _ _ _
             (rect_loop_ok _ ms rest Hval Hreg 0 _ (with_stream c _) r eq_refl)).
  unfold ret, NewFramebufferUpdate.
  replace (replicate (length ms) zero_Rectangle)
    with (replicate (length (map (rect_of (build_encMap (Encodings c))) ms))
            (@zero_Rectangle Encoding))
    by (rewrite length_map; reflexivity).
  rewrite fill_replicate.
  unfold wrap16. rewrite length_map, Z.mod_small by lia. reflexivity.
Qed.

(** X8. A FramebufferUpdate whose headers all name registered encodings
    decodes to a message with one rectangle per header, in wire order,
    each with the header's position and size and the decoder the registry
    holds for its id; the count field is the number of rectangles; exactly
    the 3 + 12 n bytes of the message are consumed from the connection. *)
Theorem FramebufferUpdate_Read_ok (c : ClientConn) (r : list Z) (pad : Z)
    (ms : list RectangleMessage) (rest : list Z) :
  c_stream c = pad :: be_encode 2 (Z.of_nat (length ms)) ++
               flat_map rect_bytes ms ++ rest ->
  Z.of_nat (length ms) < 65536 ->
  Forall valid_rect ms ->
  Forall (fun m => is_Some (build_encMap (Encodings c) !! msg_Encoding m)) ms ->
  let rects := map (rect_of (build_encMap (Encodings c))) ms in
  FramebufferUpdate_Read c r =
    (Some (MsgFramebufferUpdate
             {| Msg := FramebufferUpdateMsg; NumRect := Z.of_nat (length ms);
                Rects := rects |}),
     None, (with_stream c rest, r)) /\
  length rects = length ms /\
  Forall (fun rc => is_Some (Enc rc)) rects /\
  length (c_stream c) = (3 + 12 * length ms + length rest)%nat.
Proof.
  intros Hc Hlen Hval Hreg rects.
  split; [apply (FramebufferUpdate_Read_registered c r pad ms rest); assumption|].
  split; [apply length_map|]. split.
  - unfold rects. clear Hc Hlen Hval. induction Hreg as [|m ms Hm Hreg IH];
      cbn [map]; constructor; [exact Hm | exact IH].
  - rewrite Hc. cbn [length]. rewrite !length_app, be_encode_length.
    assert (length (flat_map rect_bytes ms) = (12 * length ms)%nat) as ->.
    { clear. induction ms as [|m ms IH]; [reflexivity|].
      cbn [flat_map length]. rewrite length_app, rect_bytes_length, IH. lia. }
    lia.
Qed.

(** X9. Raw rectangles always decode: whatever encodings are configured, none
    included, a FramebufferUpdate whose headers all carry the Raw id
    decodes, and every rectangle refers to the built-in Raw decoder. *)
Theorem FramebufferUpdate_Read_raw (c : ClientConn) (r : list Z) (pad : Z)
    (ms : list RectangleMessage) (rest : list Z) :
  c_stream c = pad :: be_encode 2 (Z.of_nat (length ms)) ++
               flat_map rect_bytes ms ++ rest ->
  Z.of_nat (length ms) < 65536 ->
  Forall valid_rect ms ->
  Forall (fun m => msg_Encoding m = Raw) ms ->
  FramebufferUpdate_Read c r =
  (Some (MsgFramebufferUpdate
           {| Msg := FramebufferUpdateMsg; NumRect := Z.of_nat (length ms);
              Rects := map (fun m => {| X := msg_X m; Y := msg_Y m;
                                        Width := msg_Width m;
                                        Height := msg_Height m;
                                        Enc := Some (NewRawEncoding []) |}) ms |}),
   None, (with_stream c rest, r)).
Proof.
  intros Hc Hlen Hval Hraw.
  rewrite (FramebufferUpdate_Read_registered c r pad ms rest Hc Hlen Hval).
  - assert (map (rect_of (build_encMap (Encodings c))) ms =
            map (fun m => {| X := msg_X m; Y := msg_Y m; Width := msg_Width m;
                             Height := msg_Height m;
                             Enc := Some (NewRawEncoding []) |}) ms) as ->;
      [|reflexivity].
    clear Hc Hlen Hval.
    induction Hraw as [|m ms Hm Hraw IH]; [reflexivity|].
    cbn [map]. rewrite IH. f_equal.
    unfold rect_of. rewrite Hm, build_encMap_Raw. reflexivity.
  - clear Hc Hlen Hval. induction Hraw as [|m ms Hm Hraw IH]; constructor.
    + rewrite Hm, build_encMap_Raw. eexists. reflexivity.
    + exact IH.
Qed.

Lemma receive_RectangleMessage_short (c : ClientConn) (r : list Z) :
  (length (c_stream c) < 12)%nat ->
  receive_RectangleMessage (c, r) =
  (inr (eof_error (c_stream c)), (with_stream c [], r)).
Proof.
  intros Hlen. unfold receive_RectangleMessage.
  apply bind_inr, receive_short. exact Hlen.
Qed.

Lemma rect_loop_truncated (encMap : gmap Z Encoding)
    (pre : list RectangleMessage) (partial : list Z) :
  Forall valid_rect pre ->
  Forall (fun m => is_Some (encMap !! msg_Encoding m)) pre ->
  (length partial < 12)%nat ->
  forall (todo i : nat) (rects : list Rectangle) (c : ClientConn) (r : list Z),
  (length pre < todo)%nat ->
  c_stream c = flat_map rect_bytes pre ++ partial ->
  rect_loop encMap todo i rects (c, r) =
  (inr (eof_error partial), (with_stream c [], r)).
Proof.
  intros Hval Hreg Hpart.
  induction pre as [|m pre IH]; intros todo i rects c r Htodo Hc.
  - destruct todo as [|todo]; [simpl in Htodo; lia|].
    cbn [rect_loop]. cbn in Hc.
    rewrite (bind_inr _ _ _ _ _ (receive_RectangleMessage_short c r
                                   ltac:(rewrite Hc; exact Hpart))).
    rewrite Hc. reflexivity.
  - destruct todo as [|todo]; [simpl in Htodo; lia|].
    apply Forall_cons_1 in Hval as [Hm Hval].
    apply Forall_cons_1 in Hreg as [[enc Henc] Hreg].
    cbn [flat_map] in Hc. rewrite <- app_assoc in Hc.
    cbn [rect_loop].
    rewrite (bind_inl _ _ _ _ _ (receive_RectangleMessage_app c r m _ Hm Hc)).
    rewrite Henc.
    rewrite (IH Hval Hreg todo (S i) _ (with_stream c _) r);
      [reflexivity | simpl in Htodo; lia | reflexivity].
Qed.

(** X10. A FramebufferUpdate cut short fails: it returns no message, not
    even the rectangles decoded so far, and an error. This holds when the
    stream ends within the 3 header bytes and when it ends after any
    number of complete, registered rectangle headers that is less than
    the announced count. *)
Theorem FramebufferUpdate_Read_truncated (c : ClientConn) (r : list Z)
    (pad n : Z) (pre : list RectangleMessage) (partial : list Z) :
  c_stream c = pad :: be_encode 2 n ++ flat_map rect_bytes pre ++ partial ->
  0 <= n < 65536 -> Z.of_nat (length pre) < n -> (length partial < 12)%nat ->
  Forall valid_rect pre ->
  Forall (fun m => is_Some (build_encMap (Encodings c) !! msg_Encoding m)) pre ->
  (exists (err : error) (st' : state),
     FramebufferUpdate_Read c r = (None, Some err, st')) /\
  forall c0 : ClientConn,
    (length (c_stream c0) < 3)%nat ->
    exists (err : error) (st' : state),
      FramebufferUpdate_Read c0 r = (None, Some err, st').
Proof.
  intros Hc Hn Hlen Hpart Hval Hreg. split.
  - exists (eof_error partial), (with_stream c [], r).
    unfold FramebufferUpdate_Read, finish.
    rewrite (bind_inl _ _ _ _ _ (receive_app 1 c r [pad] _ eq_refl Hc)).
    rewrite (bind_inl _ _ _ _ _
               (receive_app 2 (with_stream c _) r (be_encode 2 n) _
                  (be_encode_length 2 n) eq_refl)).
    rewrite be_decode_encode by (change (256 ^ Z.of_nat 2) with 65536; lia).
    rewrite (bind_inr _ _ _ _ _
               (rect_loop_truncated _ pre partial Hval Hreg Hpart
                  (Z.to_nat n) 0 _ (with_stream c _) r ltac:(lia) eq_refl)).
    reflexivity.
  - intros c0 Hshort.
    exists (eof_error (drop 1 (c_stream c0))), (with_stream c0 [], r).
    destruct c0 as [s encs cm dbg]. cbn in Hshort |- *.
    destruct s as [|p [|a [|b s]]]; [reflexivity | reflexivity | reflexivity|].
    simpl in Hshort. lia.
Qed.

Lemma finish_snd (m : dec ServerMessage) (st : state) :
  snd (finish m st) = snd (m st).
Proof. unfold finish. destruct (m st) as [[msg|err] st']; reflexivity. Qed.

(** *** Which ids the registry lacks *)

Lemma filter_nil_Forall (id : Z) (encs : list Encoding) :
  filter (fun e => Type_ e = id) encs = [] <->
  Forall (fun e => Type_ e <> id) encs.
Proof.
  induction encs as [|e encs IH]; [split; [constructor | reflexivity]|].
  rewrite filter_cons. destruct (decide (Type_ e = id)) as [Heq|Hne].
  - split; [discriminate|]. intros Hall. apply Forall_cons_1 in Hall as [Hne _].
    contradiction.
  - rewrite IH. split.
    + intros Hall. constructor; assumption.
    + intros Hall. apply Forall_cons_1 in Hall as [_ Hall]. exact Hall.
Qed.

(** X12. An encoding id is unsupported exactly when it is not the Raw id and
    no configured encoding announces it; and what the registry holds at
    an id other than Raw is one of the configured encodings, announcing
    that id. *)
Theorem build_encMap_unsupported (encs : list Encoding) (id : Z) :
  (build_encMap encs !! id = None <->
   id <> Raw /\ Forall (fun e => Type_ e <> id) encs) /\
  (forall e, id <> Raw -> build_encMap encs !! id = Some e ->
             e ∈ encs /\ Type_ e = id).
Proof.
  split; [split|].
  - intros Hnone. destruct (decide (id = Raw)) as [->|Hne].
    + rewrite build_encMap_Raw in Hnone. discriminate.
    + split; [exact Hne|]. rewrite build_encMap_other in Hnone by exact Hne.
      apply last_None in Hnone. apply filter_nil_Forall. exact Hnone.
  - intros [Hne Hall]. rewrite build_encMap_other by exact Hne.
    apply last_None, filter_nil_Forall. exact Hall.
  - intros e Hne Hsome. rewrite build_encMap_other in Hsome by exact Hne.
    apply last_Some_elem_of, list_elem_of_filter in Hsome as [Hty Hin].
    split; assumption.
Qed.

End FramebufferUpdateFacts.

(** ** SetColorMapEntries, ServerCutText and Bell at the edges *)

Section MessageEdges.
Import Server.
Context {Encoding : Type}.

Local Abbreviation ClientConn := (@Server.ClientConn Encoding).
Local Abbreviation state := (@Server.state Encoding).
Local Abbreviation dec := (@Server.dec Encoding).
Local Abbreviation ServerMessage := (@Server.ServerMessage Encoding).

Lemma color_loop_truncated (first : Z) (cols : list Color) (partial : list Z) :
  Forall valid_Color cols -> (length partial < 6)%nat ->
  forall (todo i : nat) (colors : list Color) (c : ClientConn),
  (length cols < todo)%nat ->
  color_loop first todo i colors (c, flat_map color_bytes cols ++ partial) =
  (inr (color_eof_error partial),
   (with_colorMap c (store_colors first i cols (colorMap c)), [])).
Proof.
  intros Hcols Hpart.
  induction Hcols as [|col cols (HR & HG & HB) Hcols IH];
    intros todo i colors c Htodo.
  - destruct todo as [|todo]; [simpl in Htodo; lia|].
    destruct c.
    destruct partial as [|b0 [|b1 [|b2 [|b3 [|b4 [|b5 partial]]]]]];
      try reflexivity.
    simpl in Hpart. lia.
  - destruct todo as [|todo]; [simpl in Htodo; lia|].
    cbn [color_loop flat_map]. unfold color_bytes at 1.
    rewrite <- !app_assoc.
    rewrite (bind_inl _ _ _ _ _ (read_uint16_app c (R col) _ HR)).
    rewrite (bind_inl _ _ _ _ _ (read_uint16_app c (G col) _ HG)).
    rewrite (bind_inl _ _ _ _ _ (read_uint16_app c (B col) _ HB)).
    unfold bind at 1. cbn [set_colorMap].
    rewrite IH by (simpl in Htodo; lia). destruct col. reflexivity.
Qed.

(** X13. A SetColorMapEntries message cut short within its colors returns no
    message and an end-of-stream error, [io.EOF] when the stream ends
    between two 16-bit fields and [io.ErrUnexpectedEOF] when it ends
    inside one; the colors decoded before the cut have been written to
    the color map and stay there. *)
Theorem SetColorMapEntries_Read_truncated (c : ClientConn) (pad first n : Z)
    (cols : list Color) (partial : list Z) :
  0 <= first < 65536 -> 0 <= n < 65536 -> Z.of_nat (length cols) < n ->
  Forall valid_Color cols -> (length partial < 6)%nat ->
  let r := pad :: be_encode 2 first ++ be_encode 2 n ++
           flat_map color_bytes cols ++ partial in
  let c' := with_colorMap c (store_colors first 0 cols (colorMap c)) in
  SetColorMapEntries_Read c r =
    (None, Some (color_eof_error partial), (c', [])) /\
  forall (i : nat) col, cols !! i = Some col ->
    colorMap c' !! wrap16 (first + Z.of_nat i) = Some col.
Proof.
  intros Hfirst Hn Hlen Hcols Hpart r c'. split.
  - unfold SetColorMapEntries_Read, finish, r.
    rewrite (bind_inl _ _ _ _ _ (read_1 c pad _)).
    rewrite (bind_inl _ _ _ _ _ (read_uint16_app c first _ Hfirst)).
    rewrite (bind_inl _ _ _ _ _ (read_uint16_app c n _ Hn)).
    rewrite (bind_inr _ _ _ _ _
               (color_loop_truncated first cols partial Hcols Hpart
                  (Z.to_nat n) 0 _ c ltac:(lia))).
    reflexivity.
  - intros i col Hi. unfold c'. cbn [colorMap with_colorMap].
    apply (store_colors_lookup first cols 0 i); [simpl; lia | exact Hi].
Qed.

Lemma grows_colorMap_refl (st : state) : grows_colorMap st st.
Proof. repeat split. auto. Qed.

Lemma grows_colorMap_trans (st1 st2 st3 : state) :
  grows_colorMap st1 st2 -> grows_colorMap st2 st3 -> grows_colorMap st1 st3.
Proof.
  intros (He & Hd & Hm) (He' & Hd' & Hm').
  repeat split; [congruence | congruence | auto].
Qed.

Lemma grows_colorMap_same_conn (st st' : state) :
  fst st' = fst st -> grows_colorMap st st'.
Proof. intros Heq. unfold grows_colorMap. rewrite Heq. repeat split. auto. Qed.

Lemma read_fst (n : nat) (st : state) : fst (snd (read n st)) = fst st.
Proof.
  destruct st as [c r]. unfold read.
  destruct (ReadFull n r) as [res rest]. reflexivity.
Qed.

Lemma read_uint16_fst (st : state) : fst (snd (read_uint16 st)) = fst st.
Proof.
  unfold read_uint16, bind, ret. pose proof (read_fst 2 st) as Hr.
  destruct (read 2 st) as [[bs|e] st1]; exact Hr.
Qed.

Lemma read_uint32_fst (st : state) : fst (snd (read_uint32 st)) = fst st.
Proof.
  unfold read_uint32, bind, ret. pose proof (read_fst 4 st) as Hr.
  destruct (read 4 st) as [[bs|e] st1]; exact Hr.
Qed.

Lemma set_colorMap_grows (k : Z) (color : Color) (st : state) :
  grows_colorMap st (snd (set_colorMap k color st)).
Proof.
  destruct st as [c r]. cbn. repeat split.
  intros k' Hk'. apply lookup_insert_is_Some.
  destruct (decide (k = k')); [left | right]; auto.
Qed.

Lemma color_loop_grows (first : Z) (todo : nat) :
  forall (i : nat) (colors : list Color) (st : state),
  grows_colorMap st (snd (color_loop first todo i colors st)).
Proof.
  induction todo as [|todo IH]; intros i colors st.
  - apply grows_colorMap_refl.
  - cbn [color_loop]. unfold bind.
    pose proof (read_uint16_fst st) as H1.
    destruct (read_uint16 st) as [[rv|e] st1]; cbn [snd] in H1 |- *;
      [|apply grows_colorMap_same_conn; exact H1].
    pose proof (read_uint16_fst st1) as H2.
    destruct (read_uint16 st1) as [[gv|e] st2]; cbn [snd] in H2 |- *;
      [|apply grows_colorMap_same_conn; congruence].
    pose proof (read_uint16_fst st2) as H3.
    destruct (read_uint16 st2) as [[bv|e] st3]; cbn [snd] in H3 |- *;
      [|apply grows_colorMap_same_conn; congruence].
    match goal with
    | |- context [set_colorMap ?k ?col st3] =>
        pose proof (set_colorMap_grows k col st3) as H4;
        destruct (set_colorMap k col st3) as [[u|e] st4]
    end; cbn [snd] in H4 |- *.
    + apply (grows_colorMap_trans _ st3);
        [apply grows_colorMap_same_conn; congruence|].
      eapply grows_colorMap_trans; [exact H4 | apply IH].
    + apply (grows_colorMap_trans _ st3);
        [apply grows_colorMap_same_conn; congruence | exact H4].
Qed.

(** X14. On every input, success or failure, every index that had a color
    in the connection's color map before [SetColorMapEntries.Read] has one
    after it: entries are written or overwritten, never removed. The
    decode assigns to no other field of the connection: the encoding list
    and the debug flag are what they were. *)
Theorem SetColorMapEntries_Read_frame (c : ClientConn) (r : list Z) :
  grows_colorMap (c, r) (snd (SetColorMapEntries_Read c r)).
Proof.
  unfold SetColorMapEntries_Read. rewrite finish_snd. unfold bind, ret.
  pose proof (read_fst 1 (c, r)) as H1.
  destruct (read 1 (c, r)) as [[pad|e] st1]; cbn [snd fst] in H1 |- *;
    [|apply grows_colorMap_same_conn; exact H1].
  pose proof (read_uint16_fst st1) as H2.
  destruct (read_uint16 st1) as [[first|e] st2]; cbn [snd] in H2 |- *;
    [|apply grows_colorMap_same_conn; cbn [fst]; congruence].
  pose proof (read_uint16_fst st2) as H3.
  destruct (read_uint16 st2) as [[n|e] st3]; cbn [snd] in H3 |- *;
    [|apply grows_colorMap_same_conn; cbn [fst]; congruence].
  match goal with
  | |- context [color_loop ?f ?t ?i ?cs st3] =>
      pose proof (color_loop_grows f t i cs st3) as H4;
      destruct (color_loop f t i cs st3) as [[colors|e] st4]
  end; cbn [snd] in H4 |- *;
    (apply (grows_colorMap_trans _ st3);
       [apply grows_colorMap_same_conn; cbn [fst]; congruence | exact H4]).
Qed.

Lemma SetColorMapEntries_Read_stores (c : ClientConn) (pad first : Z)
    (cols : list Color) (rest : list Z) :
  0 <= first < 65536 -> Z.of_nat (length cols) < 65536 -> Forall valid_Color cols ->
  SetColorMapEntries_Read c
    (pad :: be_encode 2 first ++ be_encode 2 (Z.of_nat (length cols)) ++
     flat_map color_bytes cols ++ rest) =
  (Some (MsgSetColorMapEntries {| FirstColor := first; Colors := cols |}), None,
   (with_colorMap c (store_colors first 0 cols (colorMap c)), rest)).
Proof.
  intros Hfirst Hlen Hcols. unfold SetColorMapEntries_Read, finish.
  rewrite (bind_inl _ _ _ _ _ (read_1 c pad _)).
  rewrite (bind_inl _ _ _ _ _ (read_uint16_app c first _ Hfirst)).
  rewrite (bind_inl _ _ _ _ _
             (read_uint16_app c (Z.of_nat (length cols)) _ ltac:(lia))).
  rewrite Nat2Z.id.
  rewrite (bind_inl _ _ _ _ _ (color_loop_ok first cols Hcols 0 _ c rest)).
  unfold ret. rewrite fill_replicate. reflexivity.
Qed.

(** X15. Two SetColorMapEntries messages decoded one after the other from the
    same reader: the second decode starts where the first stopped and
    returns the second message; afterwards every index the second
    message covers holds the second message's color, and an index only
    the first message covers still holds the first message's color. *)
Theorem SetColorMapEntries_Read_twice (c : ClientConn) (pad1 first1 : Z)
    (cols1 : list Color) (pad2 first2 : Z) (cols2 : list Color)
    (rest : list Z) :
  0 <= first1 < 65536 -> Z.of_nat (length cols1) < 65536 ->
  Forall valid_Color cols1 ->
  0 <= first2 < 65536 -> Z.of_nat (length cols2) < 65536 ->
  Forall valid_Color cols2 ->
  let r := pad1 :: be_encode 2 first1 ++ be_encode 2 (Z.of_nat (length cols1)) ++
           flat_map color_bytes cols1 ++
           pad2 :: be_encode 2 first2 ++ be_encode 2 (Z.of_nat (length cols2)) ++
           flat_map color_bytes cols2 ++ rest in
  let st1 := snd (SetColorMapEntries_Read c r) in
  let c2 := with_colorMap c (store_colors first2 0 cols2
                               (store_colors first1 0 cols1 (colorMap c))) in
  SetColorMapEntries_Read (fst st1) (snd st1) =
    (Some (MsgSetColorMapEntries {| FirstColor := first2; Colors := cols2 |}),
     None, (c2, rest)) /\
  (forall (j : nat) col, cols2 !! j = Some col ->
     colorMap c2 !! wrap16 (first2 + Z.of_nat j) = Some col) /\
  (forall (i : nat) col, cols1 !! i = Some col ->
     (forall j, (j < length cols2)%nat ->
        wrap16 (first1 + Z.of_nat i) <> wrap16 (first2 + Z.of_nat j)) ->
     colorMap c2 !! wrap16 (first1 + Z.of_nat i) = Some col).
Proof.
  intros Hf1 Hl1 Hc1 Hf2 Hl2 Hc2 r st1 c2. split; [|split].
  - unfold st1, r.
    rewrite (SetColorMapEntries_Read_stores c pad1 first1 cols1 _ Hf1 Hl1 Hc1).
    cbn [snd fst].
    rewrite (SetColorMapEntries_Read_stores _ pad2 first2 cols2 rest Hf2 Hl2 Hc2).
    reflexivity.
  - intros j col Hj. unfold c2. cbn [colorMap with_colorMap].
    apply (store_colors_lookup first2 cols2 0 j); [simpl; lia | exact Hj].
  - intros i col Hi Hfree. unfold c2. cbn [colorMap with_colorMap].
    rewrite store_colors_other by (intros j Hj; simpl; apply Hfree; exact Hj).
    apply (store_colors_lookup first1 cols1 0 i); [simpl; lia | exact Hi].
Qed.

(** *** ServerCutText *)

Lemma bytes_of_string_of_bytes (bs : list Z) :
  Forall (fun b => 0 <= b < 256) bs ->
  bytes_of_string (string_of_bytes bs) = bs.
Proof.
  induction 1 as [|b bs Hb Hbs IH]; simpl; [reflexivity|].
  rewrite IH, N_ascii_embedding by lia. rewrite Z2N.id by lia. reflexivity.
Qed.

Lemma string_of_bytes_length (bs : list Z) :
  String.length (string_of_bytes bs) = length bs.
Proof. induction bs; simpl; congruence. Qed.

(** X16. The layout [ServerCutText.Read] decodes is one padding byte, a
    32-bit big-endian length and that many bytes. On such a stream it
    returns a text with exactly those bytes, none altered or dropped
    whatever their values, consumes exactly the message and leaves the
    connection as it was; a length of zero gives the empty text. *)
Theorem ServerCutText_Read_layout (c : ClientConn) (pad : Z)
    (payload rest : list Z) :
  Z.of_nat (length payload) < 4294967296 ->
  Forall (fun b => 0 <= b < 256) payload ->
  ServerCutText_Read c
    (pad :: be_encode 4 (Z.of_nat (length payload)) ++ payload ++ rest) =
    (Some (MsgServerCutText {| Text := string_of_bytes payload |}), None,
     (c, rest)) /\
  bytes_of_string (string_of_bytes payload) = payload /\
  String.length (string_of_bytes payload) = length payload.
Proof.
  intros Hlen Hbytes.
  split; [apply ServerCutText_Read_one_pad; exact Hlen|].
  split; [apply bytes_of_string_of_bytes; exact Hbytes|].
  apply string_of_bytes_length.
Qed.

(** X17. A ServerCutText message cut short returns no message and the
    end-of-stream error of the read that failed, whether the stream ends
    within the announced text or within the 5 bytes before it; and on
    every input the connection is left as it was. *)
Theorem ServerCutText_Read_truncated (c : ClientConn) (pad len : Z)
    (partial : list Z) :
  0 <= len < 4294967296 -> Z.of_nat (length partial) < len ->
  ServerCutText_Read c (pad :: be_encode 4 len ++ partial) =
    (None, Some (eof_error partial), (c, [])) /\
  (forall r0 : list Z,
     (length r0 < 5)%nat ->
     ServerCutText_Read c r0 = (None, Some (eof_error (drop 1 r0)), (c, []))) /\
  (forall r0 : list Z, fst (snd (ServerCutText_Read c r0)) = c).
Proof.
  intros Hlen Hpart. split; [|split].
  - unfold ServerCutText_Read, finish.
    rewrite (bind_inl _ _ _ _ _ (read_1 c pad _)).
    rewrite <- (app_nil_r partial) at 1. rewrite app_assoc.
    rewrite <- (app_assoc (be_encode 4 len) partial []).
    rewrite (bind_inl _ _ _ _ _ (read_uint32_app c len _ Hlen)).
    rewrite app_nil_r.
    rewrite (bind_inr _ _ _ _ _ (read_short (Z.to_nat len) c partial ltac:(lia))).
    reflexivity.
  - intros r0 Hshort.
    destruct r0 as [|p [|b0 [|b1 [|b2 [|b3 r0]]]]]; try reflexivity.
    simpl in Hshort. lia.
  - intros r0. unfold ServerCutText_Read. rewrite finish_snd.
    unfold bind, ret.
    pose proof (read_fst 1 (c, r0)) as H1.
    destruct (read 1 (c, r0)) as [[p|e] st1]; cbn [snd fst] in H1 |- *;
      [|exact H1].
    pose proof (read_uint32_fst st1) as H2.
    destruct (read_uint32 st1) as [[n|e] st2]; cbn [snd] in H2 |- *;
      [|congruence].
    pose proof (read_fst (Z.to_nat n) st2) as H3.
    destruct (read (Z.to_nat n) st2) as [[bs|e] st3]; cbn [snd] in H3 |- *;
      congruence.
Qed.

End MessageEdges.

(** ** The tag of a decoded message *)

Section MessageTags.
Import Server.
Context {Encoding : Type} `{EncodingPkg Encoding}.

Local Abbreviation ClientConn := (@Server.ClientConn Encoding).
Local Abbreviation state := (@Server.state Encoding).
Local Abbreviation dec := (@Server.dec Encoding).
Local Abbreviation ServerMessage := (@Server.ServerMessage Encoding).

Lemma returns_ret {A} (P : A -> Prop) (a : A) :
  P a -> @returns Encoding A P (ret a).
Proof. intros Ha st a' st' [= <- _]. exact Ha. Qed.

Lemma returns_bind {A B} (P : B -> Prop) (m : dec A) (k : A -> dec B) :
  (forall a, returns P (k a)) -> returns P (bind m k).
Proof.
  intros Hk st b st'. unfold bind.
  destruct (m st) as [[a|e] st1]; [apply Hk | discriminate].
Qed.

Lemma finish_returns (P : ServerMessage -> Prop) (m : dec ServerMessage)
    (st : state) (msg : ServerMessage) :
  returns P m -> fst (fst (finish m st)) = Some msg -> P msg.
Proof.
  intros Hm. unfold finish.
  destruct (m st) as [[a|e] st1] eqn:Hrun; cbn; [|discriminate].
  intros [= <-]. exact (Hm st a st1 Hrun).
Qed.

Lemma finish_exclusive (m : dec ServerMessage) (st : state) :
  fst (fst (finish m st)) = None <-> snd (fst (finish m st)) <> None.
Proof.
  unfold finish. destruct (m st) as [[a|e] st1]; cbn; split;
    congruence.
Qed.

(** X18. A message that a reader returns carries that reader's tag:
    [FramebufferUpdate.Read] yields type 0, [SetColorMapEntries.Read]
    type 1, [ServerCutText.Read] type 3, and [Bell.Read], which consumes
    nothing and cannot fail, type 2. Each of the three fallible readers
    returns a message exactly when it returns no error. *)
Theorem Read_Type (c : ClientConn) (r : list Z) (msg : ServerMessage) :
  (fst (fst (FramebufferUpdate_Read c r)) = Some msg ->
   ServerMessage_Type msg = 0) /\
  (fst (fst (SetColorMapEntries_Read c r)) = Some msg ->
   ServerMessage_Type msg = 1) /\
  (fst (fst (ServerCutText_Read c r)) = Some msg ->
   ServerMessage_Type msg = 3) /\
  (Bell_Read c r = (Some MsgBell, None, (c, r)) /\
   ServerMessage_Type (@MsgBell Encoding) = 2) /\
  (fst (fst (FramebufferUpdate_Read c r)) = None <->
   snd (fst (FramebufferUpdate_Read c r)) <> None) /\
  (fst (fst (SetColorMapEntries_Read c r)) = None <->
   snd (fst (SetColorMapEntries_Read c r)) <> None) /\
  (fst (fst (ServerCutText_Read c r)) = None <->
   snd (fst (ServerCutText_Read c r)) <> None).
Proof.
  split; [|split; [|split; [|split; [|split; [|split]]]]].
  - apply (finish_returns (fun m => ServerMessage_Type m = 0)).
    do 3 (apply returns_bind; intros ?). apply returns_ret. reflexivity.
  - apply (finish_returns (fun m => ServerMessage_Type m = 1)).
    do 4 (apply returns_bind; intros ?). apply returns_ret. reflexivity.
  - apply (finish_returns (fun m => ServerMessage_Type m = 3)).
    do 3 (apply returns_bind; intros ?). apply returns_ret. reflexivity.
  - split; reflexivity.
  - apply finish_exclusive.
  - apply finish_exclusive.
  - apply finish_exclusive.
Qed.

End MessageTags.

(** ** The decoder's edges on concrete connections *)

Section DecoderEdgeInstances.
Import Server.

Lemma FramebufferUpdate_Read_ok_witness :
  let ms := [sample_rect 1 2 3 4 5; sample_rect 10 20 30 40 0] in
  let encs := [SampleCodec 5 "tiles"] in
  @FramebufferUpdate_Read _ sample_pkg
    (sample_conn ([0] ++ be_encode 2 2 ++ flat_map rect_bytes ms ++ [9]) encs) [] =
  (Some (MsgFramebufferUpdate
           {| Msg := 0; NumRect := 2;
              Rects := [ {| X := 1; Y := 2; Width := 3; Height := 4;
                            Enc := Some (SampleCodec 5 "tiles") |};
                         {| X := 10; Y := 20; Width := 30; Height := 40;
                            Enc := Some (SampleRaw []) |} ] |}),
   None, (sample_conn [9] encs, [])).
Proof.
  intros ms encs.
  destruct (@FramebufferUpdate_Read_ok _ sample_pkg
              (sample_conn ([0] ++ be_encode 2 2 ++ flat_map rect_bytes ms ++ [9])
                 encs) [] 0 ms [9]) as (Hread & _).
  - reflexivity.
  - simpl. lia.
  - repeat constructor; simpl; lia.
  - repeat constructor; eexists; reflexivity.
  - exact Hread.
Defined.

Lemma FramebufferUpdate_Read_raw_witness :
  @FramebufferUpdate_Read _ sample_pkg
    (sample_conn ([0] ++ be_encode 2 1 ++ rect_bytes (sample_rect 1 2 3 4 0))
       [SampleCodec 0 "caller raw"]) [] =
  (Some (MsgFramebufferUpdate
           {| Msg := 0; NumRect := 1;
              Rects := [ {| X := 1; Y := 2; Width := 3; Height := 4;
                            Enc := Some (SampleRaw []) |} ] |}),
   None, (sample_conn [] [SampleCodec 0 "caller raw"], [])).
Proof.
  apply (@FramebufferUpdate_Read_raw _ sample_pkg
           (sample_conn _ [SampleCodec 0 "caller raw"]) [] 0
           [sample_rect 1 2 3 4 0] []).
  - reflexivity.
  - simpl. lia.
  - repeat constructor; simpl; lia.
  - repeat constructor.
Defined.

Lemma FramebufferUpdate_Read_truncated_witness :
  exists (err : error) (st' : @state SampleEncoding),
    @FramebufferUpdate_Read _ sample_pkg
      (sample_conn ([0] ++ be_encode 2 2 ++
                    rect_bytes (sample_rect 1 2 3 4 0) ++ [0; 1; 0]) []) [] =
    (None, Some err, st').
Proof.
  destruct (@FramebufferUpdate_Read_truncated _ sample_pkg
              (sample_conn ([0] ++ be_encode 2 2 ++
                            rect_bytes (sample_rect 1 2 3 4 0) ++ [0; 1; 0]) [])
              [] 0 2 [sample_rect 1 2 3 4 0] [0; 1; 0]) as [Hcut _].
  - reflexivity.
  - lia.
  - simpl. lia.
  - simpl. lia.
  - repeat constructor; simpl; lia.
  - repeat constructor. eexists. reflexivity.
  - exact Hcut.
Defined.

Lemma build_encMap_unsupported_witness :
  @build_encMap _ sample_pkg [SampleCodec 5 "tiles"] !! 7 = None.
Proof.
  destruct (@build_encMap_unsupported _ sample_pkg [SampleCodec 5 "tiles"] 7)
    as [[_ Hnone] _].
  apply Hnone. split; [discriminate|]. repeat constructor. discriminate.
Defined.

Lemma SetColorMapEntries_Read_truncated_witness :
  let r := [0] ++ be_encode 2 10 ++ be_encode 2 2 ++
           color_bytes {| R := 1; G := 2; B := 3 |} ++ [0; 4] in
  exists c' : @ClientConn SampleEncoding,
    SetColorMapEntries_Read (sample_conn [] []) r = (None, Some EOF, (c', [])) /\
    colorMap c' !! 10 = Some {| R := 1; G := 2; B := 3 |}.
Proof.
  intros r.
  destruct (SetColorMapEntries_Read_truncated (sample_conn [] []) 0 10 2
              [ {| R := 1; G := 2; B := 3 |} ] [0; 4]) as [Hread Hmap].
  - lia.
  - lia.
  - simpl. lia.
  - repeat constructor; simpl; lia.
  - simpl. lia.
  - eexists. split; [exact Hread | apply (Hmap 0%nat); reflexivity].
Defined.

Lemma SetColorMapEntries_Read_twice_witness :
  let red := {| R := 65535; G := 0; B := 0 |} in
  let green := {| R := 0; G := 65535; B := 0 |} in
  let blue := {| R := 0; G := 0; B := 65535 |} in
  let r := [0] ++ be_encode 2 10 ++ be_encode 2 2 ++
           flat_map color_bytes [red; green] ++
           [0] ++ be_encode 2 11 ++ be_encode 2 1 ++
           flat_map color_bytes [blue] in
  let st1 := snd (SetColorMapEntries_Read (sample_conn [] []) r) in
  exists c2 : @ClientConn SampleEncoding,
    snd (SetColorMapEntries_Read (fst st1) (snd st1)) = (c2, []) /\
    colorMap c2 !! 10 = Some red /\ colorMap c2 !! 11 = Some blue.
Proof.
  intros red green blue r st1.
  destruct (SetColorMapEntries_Read_twice (sample_conn [] []) 0 10 [red; green]
              0 11 [blue] []) as (Hread & Hsecond & Hfirst).
  - lia.
  - simpl. lia.
  - repeat constructor; simpl; lia.
  - lia.
  - simpl. lia.
  - repeat constructor; simpl; lia.
  - eexists. split; [|split].
    + exact (f_equal snd Hread).
    + apply (Hfirst 0%nat); [reflexivity|].
      intros j Hj. simpl in Hj. assert (j = 0%nat) as -> by lia. discriminate.
    + apply (Hsecond 0%nat). reflexivity.
Defined.

Lemma ServerCutText_Read_layout_witness :
  ServerCutText_Read (sample_conn [] [])
    ([0] ++ be_encode 4 5 ++ bytes_of_string "hello" ++ [42]) =
  (Some (MsgServerCutText {| Text := "hello" |}), None, (sample_conn [] [], [42])).
Proof.
  destruct (ServerCutText_Read_layout (sample_conn [] []) 0
              (bytes_of_string "hello") [42]) as [Hread _].
  - simpl. lia.
  - apply bytes_of_string_range.
  - exact Hread.
Defined.

Lemma ServerCutText_Read_truncated_witness :
  ServerCutText_Read (sample_conn [] [])
    ([0] ++ be_encode 4 5 ++ bytes_of_string "hel") =
  (None, Some ErrUnexpectedEOF, (sample_conn [] [], [])).
Proof.
  destruct (ServerCutText_Read_truncated (sample_conn [] []) 0 5
              (bytes_of_string "hel")) as [Hcut _].
  - lia.
  - simpl. lia.
  - exact Hcut.
Defined.

Lemma Read_Type_witness :
  @ServerMessage_Type SampleEncoding
    (MsgServerCutText {| Text := "hello" |}) = 3.
Proof.
  destruct (@Read_Type _ sample_pkg (sample_conn [] [])
              ([0] ++ be_encode 4 5 ++ bytes_of_string "hello")
              (MsgServerCutText {| Text := "hello" |})) as (_ & _ & Htag & _).
  apply Htag. reflexivity.
Defined.

End DecoderEdgeInstances.
